(** * AsyncParallelSolver: a shallow embedding of
      [tuner/parallel_solver/async_parallel_solver.py]

    The solver is a single control thread that talks to a process pool, a
    wall clock, an initial-design sampler, a surrogate model and an
    acquisition maximizer.  The control thread is embedded as a program in a
    state-and-exception monad over the fields of the Python object; everything
    the thread cannot decide by itself (which trials are finished when it
    polls, what a worker returns, what the clock reads, what the collaborators
    answer) is taken from an environment [env] of oracles indexed by a logical
    clock, so that a statement quantified over [env] covers every schedule of
    the workers.

    Scope of the model.  An objective value is a double of which the solver
    only ever asks comparisons: it is a rational, an infinity or NaN here.
    Times are rationals.
    Points are vectors of rationals; [self.X] is a numpy array with its shape,
    [self.y] a flat numpy array.  Writing a record is a call to the outside
    world that can fail; a record that was written is an event of the trace.
    [evaluate_func] of [base_parallel_solver], the sampler, the surrogate and
    the maximizer are parameters, fields of [env].  The two polling loops of
    [run] take a bound on their rounds and end with [OutOfFuel] when it is
    used up; the loop of [collect] needs none (lemma [collect_total]). *)

From Stdlib Require Import String ZArith QArith Bool Arith Lia List.
Import ListNotations.

Set Implicit Arguments.

(** ** Outcomes and the monad of the control thread *)

(** The Python exceptions the solver can end with. *)
Inductive exn : Type :=
| ZeroDivisionError
| NameError
| IndexError
| ValueError
| TypeError
| AttributeError
| OSError                           (* [open] on the output directory *)
| ObjectiveError (trial_id : nat)   (* re-raised by [trial.result()] *)
| TrainingError.                    (* re-raised by [choose_next] *)

(** [OutOfFuel] stands for a polling loop that has not finished within the
    number of rounds the caller allowed. *)
Inductive outcome (A : Type) : Type :=
| Ret (a : A)
| Raise (e : exn)
| OutOfFuel.

Arguments Raise {A} e.
Arguments OutOfFuel {A}.

Definition point : Type := list Q.

(** A double as the comparisons of the solver see it: a finite number, an
    infinity or NaN. *)
Inductive double : Type :=
| Num (q : Q)
| PInf
| NInf
| NaN.

(** [self.X] as a numpy array: [np.array([])], of shape (0,), or an array of
    shape (N, D) given by [D] and its [N] rows. *)
Inductive ndarray : Type :=
| Empty1D
| Matrix (d : nat) (rows : list point).

(** [self.y] as a numpy array, flattened: an array of doubles, or the array
    of objects [[None, y1, y2, ...]] that [np.append(None, y1)] starts. *)
Inductive yarray : Type :=
| Floats (ys : list double)
| Objects (ys : list double).

(** A [Future] returned by [pool.submit(evaluate_func, (objective_func, x))]:
    futures compare by identity, which is the identifier here. *)
Record trial : Type := mkTrial { tid : nat; targ : point }.

(** The JSON object written by [save_output]. *)
Record saved : Type := mkSaved {
  optimization_overhead : Q;
  saved_runtime : Q;
  incumbent : point;
  incumbents_value : double;
  time_func_eval : Q;
  iteration : nat
}.

(** The calls the control thread makes, in program order: to the sampler, the
    pool, [time.sleep], its own [choose_next], the surrogate, the acquisition
    function, the maximizer and the output directory. *)
Inductive event : Type :=
| EvSample (n : Z)                       (* initial_design(lower, upper, n, rng) *)
| EvSubmit (t : trial)                   (* pool.submit(...) *)
| EvSleep                                (* time.sleep(0.1) *)
| EvChooseNext (Xa : option ndarray) (ya : option yarray) (do_optimize : bool)
| EvTrain (Xa : option ndarray) (ya : option yarray) (do_optimize : bool)
| EvUpdate                               (* acquisition_func.update(model) *)
| EvMaximize                             (* maximize_func.maximize() *)
| EvSave (it : nat) (r : saved).         (* tuner_iter_<it>.json *)

(** The fields of [self] that the solver mutates, followed by the state of the
    outside world as the control thread has advanced it. *)
Record solver : Type := mkSolver {
  X : option ndarray;
  y : option yarray;
  time_func_evals : list Q;
  time_overhead : list Q;
  incumbents : list point;
  incumbents_values : list double;
  runtime : list Q;
  trial_statistics : list trial;
  start_time : Q;
  time_start : option Q;
  rng : nat;          (* number of draws made from [self.rng] *)
  clock : nat;        (* logical time: interactions with the world so far *)
  next_tid : nat;     (* identifier of the next future *)
  log : list event
}.

Definition set_X v s :=
  mkSolver v (y s) (time_func_evals s) (time_overhead s) (incumbents s)
    (incumbents_values s) (runtime s) (trial_statistics s) (start_time s)
    (time_start s) (rng s) (clock s) (next_tid s) (log s).
Definition set_y v s :=
  mkSolver (X s) v (time_func_evals s) (time_overhead s) (incumbents s)
    (incumbents_values s) (runtime s) (trial_statistics s) (start_time s)
    (time_start s) (rng s) (clock s) (next_tid s) (log s).
Definition set_time_func_evals v s :=
  mkSolver (X s) (y s) v (time_overhead s) (incumbents s)
    (incumbents_values s) (runtime s) (trial_statistics s) (start_time s)
    (time_start s) (rng s) (clock s) (next_tid s) (log s).
Definition set_time_overhead v s :=
  mkSolver (X s) (y s) (time_func_evals s) v (incumbents s)
    (incumbents_values s) (runtime s) (trial_statistics s) (start_time s)
    (time_start s) (rng s) (clock s) (next_tid s) (log s).
Definition set_incumbents v s :=
  mkSolver (X s) (y s) (time_func_evals s) (time_overhead s) v
    (incumbents_values s) (runtime s) (trial_statistics s) (start_time s)
    (time_start s) (rng s) (clock s) (next_tid s) (log s).
Definition set_incumbents_values v s :=
  mkSolver (X s) (y s) (time_func_evals s) (time_overhead s) (incumbents s)
    v (runtime s) (trial_statistics s) (start_time s)
    (time_start s) (rng s) (clock s) (next_tid s) (log s).
Definition set_runtime v s :=
  mkSolver (X s) (y s) (time_func_evals s) (time_overhead s) (incumbents s)
    (incumbents_values s) v (trial_statistics s) (start_time s)
    (time_start s) (rng s) (clock s) (next_tid s) (log s).
Definition set_trial_statistics v s :=
  mkSolver (X s) (y s) (time_func_evals s) (time_overhead s) (incumbents s)
    (incumbents_values s) (runtime s) v (start_time s)
    (time_start s) (rng s) (clock s) (next_tid s) (log s).
Definition set_time_start v s :=
  mkSolver (X s) (y s) (time_func_evals s) (time_overhead s) (incumbents s)
    (incumbents_values s) (runtime s) (trial_statistics s) (start_time s)
    v (rng s) (clock s) (next_tid s) (log s).
Definition set_rng v s :=
  mkSolver (X s) (y s) (time_func_evals s) (time_overhead s) (incumbents s)
    (incumbents_values s) (runtime s) (trial_statistics s) (start_time s)
    (time_start s) v (clock s) (next_tid s) (log s).
Definition set_clock v s :=
  mkSolver (X s) (y s) (time_func_evals s) (time_overhead s) (incumbents s)
    (incumbents_values s) (runtime s) (trial_statistics s) (start_time s)
    (time_start s) (rng s) v (next_tid s) (log s).
Definition set_next_tid v s :=
  mkSolver (X s) (y s) (time_func_evals s) (time_overhead s) (incumbents s)
    (incumbents_values s) (runtime s) (trial_statistics s) (start_time s)
    (time_start s) (rng s) (clock s) v (log s).
Definition set_log v s :=
  mkSolver (X s) (y s) (time_func_evals s) (time_overhead s) (incumbents s)
    (incumbents_values s) (runtime s) (trial_statistics s) (start_time s)
    (time_start s) (rng s) (clock s) (next_tid s) v.

Definition M (A : Type) : Type := solver -> outcome A * solver.

Definition ret {A} (a : A) : M A := fun s => (Ret a, s).

Definition bind {A B} (c : M A) (k : A -> M B) : M B :=
  fun s =>
    match c s with
    | (Ret a, s1) => k a s1
    | (Raise e, s1) => (Raise e, s1)
    | (OutOfFuel, s1) => (OutOfFuel, s1)
    end.

Definition raise {A} (e : exn) : M A := fun s => (Raise e, s).
Definition out_of_fuel {A} : M A := fun s => (OutOfFuel, s).
Definition get : M solver := fun s => (Ret s, s).
Definition modify (f : solver -> solver) : M unit := fun s => (Ret tt, f s).

Declare Scope solver_scope.
Delimit Scope solver_scope with solver.
Notation "x <- c ;; k" := (bind c (fun x => k))
  (at level 61, c at next level, right associativity) : solver_scope.
Notation "c ;; k" := (bind c (fun _ => k))
  (at level 61, right associativity) : solver_scope.
Open Scope solver_scope.

(** ** numpy and list helpers *)

Definition is_nan (d : double) : bool :=
  match d with NaN => true | _ => false end.

(** [a >= b] on doubles: false as soon as one side is NaN. *)
Definition dge (a b : double) : bool :=
  match a, b with
  | NaN, _ => false
  | _, NaN => false
  | PInf, _ => true
  | _, NInf => true
  | Num p, Num q => Qle_bool q p
  | _, _ => false
  end.

(** [a <= b] and [a < b] on doubles. *)
Definition dle (a b : double) : bool := dge b a.
Definition dlt (a b : double) : bool :=
  negb (is_nan a) && negb (is_nan b) && negb (dge a b).

(** [np.argmin] on doubles: one left-to-right scan that starts from the first
    value, moves to a later one when [not (v >= best)], and stops at the first
    NaN, which it takes as minimal; an empty sequence is a [ValueError]. *)
Fixpoint argmin_from (best_idx : nat) (best : double) (i : nat)
    (l : list double) : nat :=
  match l with
  | [] => best_idx
  | v :: l' =>
      if negb (dge v best) then
        if is_nan v then i else argmin_from i v (S i) l'
      else argmin_from best_idx best (S i) l'
  end.

Definition argmin (l : list double) : option nat :=
  match l with
  | [] => None
  | v :: l' => Some (if is_nan v then 0%nat else argmin_from 0 v 1 l')
  end.

(** [A.shape[0]] and the rows of [A]. *)
Definition rows_of (A : ndarray) : list point :=
  match A with Empty1D => [] | Matrix _ rows => rows end.

Definition nrows (A : ndarray) : nat := length (rows_of A).

(** [np.array(X)] for a Python list [X] of rows of one length. *)
Definition np_array (l : list point) : ndarray :=
  match l with
  | [] => Empty1D
  | r :: _ => Matrix (length r) l
  end.

(** [np.append(A, x[None, :], axis=0)]: [A] must have two axes and as many
    columns as [x] has entries; anything else is a [ValueError]. *)
Definition append_row (A : ndarray) (x : point) : option ndarray :=
  match A with
  | Empty1D => None
  | Matrix d rows =>
      if Nat.eqb (length x) d then Some (Matrix d (rows ++ [x])) else None
  end.

(** [l[i]] for [0 <= i]. *)
Definition index {A} (l : list A) (i : nat) : M A :=
  match nth_error l i with
  | Some a => ret a
  | None => raise IndexError
  end.

(** [l[-1]]. *)
Definition last_item {A} (l : list A) : M A :=
  match rev l with
  | a :: _ => ret a
  | [] => raise IndexError
  end.

(** [list.remove(t)]: drops the first element that is [t]. *)
Fixpoint remove_trial (t : trial) (l : list trial) : list trial :=
  match l with
  | [] => []
  | u :: l' => if Nat.eqb (tid u) (tid t) then l' else u :: remove_trial t l'
  end.

(** ** Configuration and environment *)

(** The constructor arguments of [AsyncParallelSolver] that the loop reads. *)
Record config : Type := mkConfig {
  lower : point;
  upper : point;
  init_points : Z;              (* initial_points *)
  train_interval : Z;
  output_path : option string;
  num_workers : Z               (* n_workers *)
}.

(** The collaborators and the worker pool.  [done_at c i] is what
    [Future.done()] answers for future [i] when polled at logical time [c];
    [evaluate_func i x] is what the worker running [evaluate_func] on [x]
    hands back, [(y, duration, x)], or [None] when the objective raised;
    [model_train] says whether [model.train] succeeds; [json_dump c dir it r]
    is the exception, if any, with which
    [json.dump(r, open(dir/tuner_iter_<it>.json, "w"))] ends at logical time
    [c]. *)
Record env : Type := mkEnv {
  initial_design : point -> point -> Z -> nat -> list point;
  done_at : nat -> nat -> bool;
  evaluate_func : nat -> point -> option (double * Q * point);
  model_train : nat -> option ndarray -> option yarray -> bool -> bool;
  maximize : nat -> point;
  wall_clock : nat -> Q;
  json_dump : nat -> string -> nat -> saved -> option exn
}.

Section Solver.

Variable cfg : config.
Variable world : env.

(** *** Interactions with the outside world *)

Definition tick_clock : M unit := modify (fun s => set_clock (S (clock s)) s).
Definition emit (e : event) : M unit := modify (fun s => set_log (log s ++ [e]) s).

(** [time.time()] *)
Definition time_time : M Q :=
  s <- get ;; tick_clock ;; ret (wall_clock world (clock s)).

(** [time.sleep(0.1)] *)
Definition sleep : M unit := emit EvSleep ;; tick_clock.

(** [trial.done()] *)
Definition done (t : trial) : M bool :=
  s <- get ;; tick_clock ;; ret (done_at world (clock s) (tid t)).

(** [trial.result()] of a finished future. *)
Definition result (t : trial) : M (double * Q * point) :=
  match evaluate_func world (tid t) (targ t) with
  | Some r => ret r
  | None => raise (ObjectiveError (tid t))
  end.

(** [self.pool.submit(evaluate_func, (self.objective_func, x))] *)
Definition submit (x : point) : M trial :=
  s <- get ;;
  let t := mkTrial (next_tid s) x in
  modify (fun s => set_next_tid (S (next_tid s)) s) ;;
  emit (EvSubmit t) ;;
  ret t.

(** [self.initial_design(self.lower, self.upper, n, rng=self.rng)] *)
Definition sample (n : Z) : M (list point) :=
  s <- get ;;
  modify (fun s => set_rng (S (rng s)) s) ;;
  emit (EvSample n) ;;
  ret (initial_design world (lower cfg) (upper cfg) n (rng s)).

(** *** [save_output] *)

(** [os.path.join(None, ...)] is a [TypeError]; the file is opened after the
    record has been put together. *)
Definition save_output (it : nat) : M unit :=
  s <- get ;;
  o <- index (time_overhead s) it ;;
  r <- index (runtime s) it ;;
  inc <- index (incumbents s) it ;;
  v <- index (incumbents_values s) it ;;
  f <- index (time_func_evals s) it ;;
  dir <- match output_path cfg with
         | Some dir => ret dir
         | None => raise TypeError
         end ;;
  match json_dump world (clock s) dir it (mkSaved o r inc v f it) with
  | None => emit (EvSave it (mkSaved o r inc v f it))
  | Some e => raise e
  end.

(** *** [choose_next] *)

Definition choose_next (Xa : option ndarray) (ya : option yarray)
    (do_optimize : bool) : M point :=
  emit (EvChooseNext Xa ya do_optimize) ;;
  match Xa, ya with
  | None, None =>
      rows <- sample 1 ;; index rows 0
  | None, Some _ => raise AttributeError          (* X.shape on None *)
  | Some A, _ =>
      if Nat.eqb (nrows A) 1 then
        (* We need at least 2 data points to train a GP *)
        rows <- sample 1 ;; index rows 0
      else
        emit (EvTrain Xa ya do_optimize) ;;
        s <- get ;; tick_clock ;;
        (if model_train world (clock s) Xa ya do_optimize then ret tt
         else raise TrainingError) ;;
        emit EvUpdate ;;
        emit EvMaximize ;;
        s <- get ;; tick_clock ;;
        ret (maximize world (clock s))
  end.

(** *** [collect] *)

(** The body of [if trial.done():] in [collect].  [evaluate_counter] is a
    local variable of [run] and no global of that name exists, so reading it
    here is a [NameError].  [np.append(None, row, axis=0)] is a [ValueError],
    as is appending to an array of another shape.  [np.append(None, new_y)]
    is the array of objects [[None, new_y]]: it is stored, and [np.argmin]
    on it is a [TypeError]. *)
Definition harvest (t : trial) : M unit :=
  r <- result t ;;
  let '(new_y, time_taken, new_x) := r in
  modify (fun s => set_time_func_evals (time_func_evals s ++ [time_taken]) s) ;;
  (* Extend the data *)
  s <- get ;;
  A <- match X s with
       | Some A0 =>
           match append_row A0 new_x with
           | Some A => ret A
           | None => raise ValueError
           end
       | None => raise ValueError
       end ;;
  modify (set_X (Some A)) ;;
  ys <- match y s with
        | Some (Floats ys0) =>
            modify (set_y (Some (Floats (ys0 ++ [new_y])))) ;;
            ret (ys0 ++ [new_y])
        | Some (Objects ys0) =>
            modify (set_y (Some (Objects (ys0 ++ [new_y])))) ;;
            raise TypeError
        | None =>
            modify (set_y (Some (Objects [new_y]))) ;;
            raise TypeError
        end ;;
  (* Estimate incumbent *)
  best_idx <- match argmin ys with
              | Some b => ret b
              | None => raise ValueError
              end ;;
  inc <- index (rows_of A) best_idx ;;
  inc_value <- index ys best_idx ;;
  modify (fun s => set_incumbents (incumbents s ++ [inc]) s) ;;
  modify (fun s => set_incumbents_values (incumbents_values s ++ [inc_value]) s) ;;
  t_now <- time_time ;;
  modify (fun s => set_runtime (runtime s ++ [t_now - start_time s]%Q) s) ;;
  match output_path cfg with
  | Some _ => raise NameError
  | None => ret tt
  end ;;
  modify (fun s => set_trial_statistics (remove_trial t (trial_statistics s)) s).

(** [for trial in self.trial_statistics:] over a list that the body shrinks:
    the list iterator holds a position [i], reads [self.trial_statistics[i]]
    from the current list and stops when [i] is past its end.  [n] bounds the
    number of rounds. *)
Fixpoint collect_from (n : nat) (i : nat) : M unit :=
  fun s =>
    match nth_error (trial_statistics s) i with
    | None => (Ret tt, s)
    | Some t =>
        match n with
        | O => (OutOfFuel, s)
        | S n' =>
            (b <- done t ;;
             (if b then harvest t else ret tt) ;;
             collect_from n' (S i)) s
        end
    end.

Definition collect : M unit :=
  fun s => collect_from (length (trial_statistics s)) 0 s.

(** *** Waiting for every in-flight trial *)

(** One pass of [for trial in self.trial_statistics: if not trial.done(): ...
    break]; the answer is [all_completed]. *)
Fixpoint scan (l : list trial) : M bool :=
  match l with
  | [] => ret true
  | t :: l' =>
      b <- done t ;;
      if b then scan l' else (sleep ;; ret false)
  end.

(** [while not all_completed:] *)
Fixpoint wait_all (fuel : nat) : M unit :=
  s <- get ;;
  all_completed <- scan (trial_statistics s) ;;
  if all_completed then ret tt
  else match fuel with
       | O => out_of_fuel
       | S fuel' => wait_all fuel'
       end.

(** *** [run] *)

(** [for i, x in enumerate(init): self.trial_statistics.append(submit ...)] *)
Fixpoint submit_all (init : list point) : M unit :=
  match init with
  | [] => ret tt
  | x :: init' =>
      t <- submit x ;;
      modify (fun s => set_trial_statistics (trial_statistics s ++ [t]) s) ;;
      submit_all init'
  end.

(** [for i, trial in enumerate(self.trial_statistics):] of the initial design,
    with the local lists [X] and [y] of [run] as accumulators. *)
Fixpoint init_harvest (overhead : Q) (init : list point) (i : nat)
    (trials : list trial) (Xl : list point) (yl : list double)
    : M (list point * list double) :=
  match trials with
  | [] => ret (Xl, yl)
  | t :: trials' =>
      r <- result t ;;
      let '(new_y, time_taken, _) := r in
      x <- index init i ;;
      let Xl' := Xl ++ [x] in
      let yl' := yl ++ [new_y] in
      modify (fun s => set_time_func_evals (time_func_evals s ++ [time_taken]) s) ;;
      modify (fun s => set_time_overhead (time_overhead s ++ [overhead]) s) ;;
      (* Use best point seen so far as incumbent *)
      best_idx <- match argmin yl' with
                  | Some b => ret b
                  | None => raise ValueError
                  end ;;
      inc <- index Xl' best_idx ;;
      inc_value <- index yl' best_idx ;;
      modify (fun s => set_incumbents (incumbents s ++ [inc]) s) ;;
      modify (fun s => set_incumbents_values (incumbents_values s ++ [inc_value]) s) ;;
      t_now <- time_time ;;
      modify (fun s => set_runtime (runtime s ++ [t_now - start_time s]%Q) s) ;;
      match output_path cfg with
      | Some _ => save_output i
      | None => ret tt
      end ;;
      init_harvest overhead init (S i) trials' Xl' yl'
  end.

(** The branch [if X is None and y is None:] of [run]. *)
Definition initial_phase (fuel : nat) : M unit :=
  start_time_overhead <- time_time ;;
  init <- sample (init_points cfg) ;;
  t_end <- time_time ;;
  overhead <- (if Z.eqb (init_points cfg) 0 then raise ZeroDivisionError
               else ret ((t_end - start_time_overhead) / inject_Z (init_points cfg))%Q) ;;
  (* Run all init config *)
  submit_all init ;;
  (* Wait all initial trials finish *)
  wait_all fuel ;;
  s <- get ;;
  r <- init_harvest overhead init 0 (trial_statistics s) [] [] ;;
  modify (set_X (Some (np_array (fst r)))) ;;
  modify (set_y (Some (Floats (snd r)))).

(** One pass through the [if]/[else] at the head of the main loop's body;
    the value is [evaluate_counter] afterwards. *)
Definition admission (evaluate_counter : Z) : M Z :=
  s <- get ;;
  if (2 * num_workers cfg <? Z.of_nat (length (trial_statistics s)))%Z then
    sleep ;; ret evaluate_counter
  else
    do_optimize <-
      (if Z.eqb (train_interval cfg) 0 then raise ZeroDivisionError
       else ret (Z.eqb ((evaluate_counter + 1) mod train_interval cfg) 0)) ;;
    (* Choose next point to evaluate *)
    start <- time_time ;;
    new_x <- choose_next (X s) (y s) do_optimize ;;
    t_end <- time_time ;;
    modify (fun s => set_time_overhead (time_overhead s ++ [t_end - start]%Q) s) ;;
    t <- submit new_x ;;
    modify (fun s => set_trial_statistics (trial_statistics s ++ [t]) s) ;;
    ret (evaluate_counter + 1)%Z.

(** The body of [while evaluate_counter < num_iterations:]. *)
Definition tick (evaluate_counter : Z) : M Z :=
  c <- admission evaluate_counter ;;
  (* Get the evaluation statistics *)
  collect ;;
  ret c.

Fixpoint main_loop (fuel : nat) (num_iterations : Z) (evaluate_counter : Z)
    : M unit :=
  if (evaluate_counter <? num_iterations)%Z then
    match fuel with
    | O => out_of_fuel
    | S fuel' =>
        c <- tick evaluate_counter ;;
        main_loop fuel' num_iterations c
    end
  else ret tt.

(** [# Wait for all tasks finish]: the block under
    [if not len(self.trial_statistics):]. *)
Definition drain (fuel : nat) : M unit :=
  s <- get ;;
  if Nat.eqb (length (trial_statistics s)) 0 then
    wait_all fuel ;; collect
  else ret tt.

Definition run (fuel : nat) (num_iterations : Z)
    (Xa : option ndarray) (ya : option yarray) : M (point * double) :=
  t0 <- time_time ;;
  modify (set_time_start (Some t0)) ;;
  modify (set_trial_statistics []) ;;
  match Xa, ya with
  | None, None => initial_phase fuel
  | _, _ => modify (set_X Xa) ;; modify (set_y ya)
  end ;;
  (* Main asynchronous parallel optimization loop *)
  modify (set_trial_statistics []) ;;
  main_loop fuel num_iterations (init_points cfg) ;;
  drain fuel ;;
  s <- get ;;
  inc <- last_item (incumbents s) ;;
  inc_value <- last_item (incumbents_values s) ;;
  ret (inc, inc_value).

(** [__init__]: the state of a solver that has just been constructed. *)
Definition new_solver : solver :=
  mkSolver None None [] [] [] [] [] [] (wall_clock world 0) None 0 1 0 [].

End Solver.

(** * Vocabulary of the statements *)

(** ** Two-state relations that every step of a program keeps

    [respects R c]: whatever the outcome of [c], the state it leaves is
    [R]-related to the state it started from. *)

Definition respects {A} (R : solver -> solver -> Prop) (c : M A) : Prop :=
  forall s, R s (snd (c s)).

(** ** Triples with a normal and an exceptional postcondition

    [triple P c Q E]: started in a state of [P], [c] either returns [a] in a
    state of [Q a], or stops (exception, or rounds used up) in a state of
    [E]. *)

Definition triple {A} (P : solver -> Prop) (c : M A)
    (Q : A -> solver -> Prop) (E : solver -> Prop) : Prop :=
  forall s, P s ->
    match c s with
    | (Ret a, s') => Q a s'
    | (Raise _, s') => E s'
    | (OutOfFuel, s') => E s'
    end.

(** ** The in-flight set *)

Definition in_flight (s : solver) : Z := Z.of_nat (length (trial_statistics s)).

(** The in-flight list is the same / has not grown. *)
Definition same_in_flight (s s' : solver) : Prop :=
  trial_statistics s' = trial_statistics s.
Definition no_more_in_flight (s s' : solver) : Prop :=
  (length (trial_statistics s') <= length (trial_statistics s))%nat.

Section LoopInstants.

Variable cfg : config.
Variable world : env.

(** The states the control thread can be observed in while it is in the main
    loop, starting from [s0]: between any two of the admission step and the
    harvest. *)
Inductive loop_instant (s0 : solver) : solver -> Prop :=
| at_loop_entry : loop_instant s0 s0
| after_admission c s :
    loop_instant s0 s -> loop_instant s0 (snd (admission cfg world c s))
| after_collect s :
    loop_instant s0 s -> loop_instant s0 (snd (collect cfg world s)).

End LoopInstants.

(** ** Traces *)

Definition same_log (s s' : solver) : Prop := log s' = log s.
Definition log_grows (s s' : solver) : Prop := exists evs, log s' = log s ++ evs.

(** Number of [pool.submit] calls in a piece of trace. *)
Fixpoint submissions (evs : list event) : Z :=
  match evs with
  | [] => 0
  | EvSubmit _ :: evs' => 1 + submissions evs'
  | _ :: evs' => submissions evs'
  end.

(** [(evaluate_counter + 1) % train_interval == 0] *)
Definition retrain_flag (cfg : config) (evaluate_counter : Z) : bool :=
  Z.eqb ((evaluate_counter + 1) mod train_interval cfg) 0.

(** Walking a piece of trace with the submission counter [c]: every call of
    [model.train] carries the flag computed from the counter at that point. *)
Fixpoint flags_follow (cfg : config) (c : Z) (evs : list event) : Prop :=
  match evs with
  | [] => True
  | EvSubmit _ :: evs' => flags_follow cfg (c + 1) evs'
  | EvTrain _ _ b :: evs' => b = retrain_flag cfg c /\ flags_follow cfg c evs'
  | _ :: evs' => flags_follow cfg c evs'
  end.

(** The events [choose_next Xa ya b] can cause after its entry. *)
Definition choosing (Xa : option ndarray) (ya : option yarray) (b : bool)
    (e : event) : Prop :=
  e = EvSample 1 \/ e = EvTrain Xa ya b \/ e = EvUpdate \/ e = EvMaximize.

(** ** The incumbent *)

(** [v] is the value at index [b] of [ys] and [b] is what [np.argmin]
    answers on [ys]: if [v] is not NaN, no value of [ys] is NaN, [v] is below
    or equal to each of them and strictly below those before [b]; if [v] is
    NaN, [b] is the index of the first NaN. *)
Definition first_minimum (ys : list double) (b : nat) (v : double) : Prop :=
  nth_error ys b = Some v /\
  if is_nan v then
    forall j w, (j < b)%nat -> nth_error ys j = Some w -> is_nan w = false
  else
    (forall j w, nth_error ys j = Some w -> dle v w = true) /\
    (forall j w, (j < b)%nat -> nth_error ys j = Some w -> dlt v w = true).

(** A record [vj] made after a record [vi] is not above it: [vj] is NaN, or
    neither is NaN and [vj <= vi]. *)
Definition not_above (vi vj : double) : Prop :=
  is_nan vj = true \/ dle vj vi = true.

(** The histories [incs] and [vals] record the incumbent of a dataset
    [(Xs, ys)] that held [base] observations before the first arrival: the
    [k]-th entry is the first minimum of the [base + k + 1] observations
    present after the [k]-th arrival. *)
Definition recorded (base : nat) (Xs : list point) (ys : list double)
    (incs : list point) (vals : list double) : Prop :=
  length incs = length vals /\
  (base + length vals <= length ys)%nat /\
  forall k v, nth_error vals k = Some v ->
    exists b p,
      first_minimum (firstn (base + k + 1) ys) b v /\
      nth_error Xs b = Some p /\
      nth_error incs k = Some p.

(** ... and every observation of the dataset has been recorded. *)
Definition recorded_all (base : nat) (Xs : list point) (ys : list double)
    (incs : list point) (vals : list double) : Prop :=
  recorded base Xs ys incs vals /\
  (base + length vals = length ys)%nat.

(** The doubles an array of values holds. *)
Definition values_of (a : yarray) : list double :=
  match a with Floats ys => ys | Objects ys => ys end.

Definition dataset_X (s : solver) : list point :=
  match X s with Some A => rows_of A | None => [] end.
Definition dataset_y (s : solver) : list double :=
  match y s with Some a => values_of a | None => [] end.

(** Number of observations [run] starts from. *)
Definition supplied (ya : option yarray) : nat :=
  match ya with Some a => length (values_of a) | None => 0 end.

(** The incumbent histories of [s] are those of [s0] followed by [incs] and
    [vals]. *)
Definition appended (s0 s : solver) (incs : list point) (vals : list double)
    : Prop :=
  incumbents s = incumbents s0 ++ incs /\
  incumbents_values s = incumbents_values s0 ++ vals.

(** The entries appended since [s0] record the incumbent of the dataset
    stored in [s]. *)
Definition records_ok (s0 : solver) (base : nat) (s : solver) : Prop :=
  exists incs vals,
    appended s0 s incs vals /\
    recorded base (dataset_X s) (dataset_y s) incs vals.
Definition records_complete (s0 : solver) (base : nat) (s : solver) : Prop :=
  exists incs vals,
    appended s0 s incs vals /\
    recorded_all base (dataset_X s) (dataset_y s) incs vals.

(** The dataset and the incumbent histories are untouched. *)
Definition same_records (s s' : solver) : Prop :=
  X s' = X s /\ y s' = y s /\
  incumbents s' = incumbents s /\ incumbents_values s' = incumbents_values s.

(** The entries appended since [s0] record the incumbent of a dataset
    [(Xs, ys)], which is the one stored in [s] unless [s] still holds the
    arrays of [s0] (the initial design stores its dataset at its end). *)
Definition history_ok (s0 : solver) (base : nat) (s : solver) : Prop :=
  exists Xs ys incs vals,
    appended s0 s incs vals /\
    recorded base Xs ys incs vals /\
    ((X s = X s0 /\ y s = y s0) \/ (dataset_X s = Xs /\ dataset_y s = ys)).

(** The state of the initial design while its trials are being collected into
    the local lists [Xl] and [yl] of [run]. *)
Definition collecting_initial (s0 : solver) (Xl : list point)
    (yl : list double) (s : solver) : Prop :=
  X s = X s0 /\ y s = y s0 /\
  exists incs vals,
    appended s0 s incs vals /\ recorded_all 0 Xl yl incs vals.

(** ** The state in which the main loop is entered

    [run] with a dataset supplied: after the bookkeeping at its head, which
    reads the clock once and stores the arguments, what remains is the main
    loop, the final block and the return. *)
Definition after_supplied (world : env) (Xa : option ndarray)
    (ya : option yarray) (s : solver) : solver :=
  set_trial_statistics []
    (set_y ya (set_X Xa
      (set_trial_statistics []
        (set_time_start (Some (wall_clock world (clock s)))
          (set_clock (S (clock s)) s))))).

(** ** A concrete scenario

    Two workers, two initial points, objective [f(x) = x[0]^2] on [[0, 1]],
    retraining at every submission, no output directory.  The sampler's
    [k]-th row of its [r]-th draw is [1/(k+r+2)]; the maximizer proposes
    [1/(c+1)] at logical time [c]; future [i] reports done from logical time
    [4*i + 6] on. *)

Definition square_objective (i : nat) (x : point)
    : option (double * Q * point) :=
  match x with
  | v :: _ => Some (Num (v * v), 1%Q, x)
  | [] => None
  end.

Definition demo_world : env :=
  mkEnv
    (fun _ _ n r => map (fun k => [1 # Pos.of_nat (k + r + 2)]) (seq 0 (Z.to_nat n)))
    (fun c i => Nat.leb (4 * i + 6) c)
    square_objective
    (fun _ _ _ _ => true)
    (fun c => [1 # Pos.of_nat (c + 1)])
    (fun c => inject_Z (Z.of_nat c))
    (fun _ _ _ _ => None).

Definition demo_cfg : config := mkConfig [0%Q] [1%Q] 2 1 None 2.

(** The same with retraining at every second submission. *)
Definition demo_cfg_every_second : config := mkConfig [0%Q] [1%Q] 2 2 None 2.

(** A pool whose workers are slow: future [i] reports done from logical time
    [40*i + 6] on. *)
Definition slow_world : env :=
  mkEnv (initial_design demo_world) (fun c i => Nat.leb (40 * i + 6) c)
    square_objective (model_train demo_world) (maximize demo_world)
    (wall_clock demo_world) (json_dump demo_world).

(** The scenario with an output directory. *)
Definition demo_cfg_output : config :=
  mkConfig [0%Q] [1%Q] 2 1 (Some "out"%string) 2.

(** A solver that was handed two evaluated points, at the head of its main
    loop. *)
Definition demo_X : ndarray := Matrix 1 [[1 # 2]; [1 # 4]].
Definition demo_y : yarray := Floats [Num (1 # 4); Num (1 # 16)].

Definition demo_supplied : solver :=
  after_supplied demo_world (Some demo_X) (Some demo_y) (new_solver demo_world).

(** A pool in which the first two futures of the main loop finish together,
    at logical time 14, and the third much later; and the supplied solver in
    the third pass of its main loop, after the admission step and before the
    harvest: three futures are in flight, the first two are finished. *)
Definition burst_world : env :=
  mkEnv (initial_design demo_world)
    (fun c i => if Nat.ltb i 2 then Nat.leb 14 c else Nat.leb 100 c)
    square_objective (model_train demo_world) (maximize demo_world)
    (wall_clock demo_world) (json_dump demo_world).

Definition before_third_harvest : solver :=
  snd (admission demo_cfg burst_world 4
        (snd (tick demo_cfg burst_world 3
          (snd (tick demo_cfg burst_world 2 demo_supplied))))).

(** ** Further scenarios *)

(** No initial point at all. *)
Definition demo_cfg_no_initial : config := mkConfig [0%Q] [1%Q] 0 1 None 2.

(** [train_interval = 0]. *)
Definition demo_cfg_no_interval : config := mkConfig [0%Q] [1%Q] 2 0 None 2.

(** A surrogate whose training always fails. *)
Definition untrainable_world : env :=
  mkEnv (initial_design demo_world) (done_at demo_world) square_objective
    (fun _ _ _ _ => false) (maximize demo_world) (wall_clock demo_world)
    (json_dump demo_world).

(** The supplied solver with one finished future in flight whose objective
    raised ([square_objective] fails on the empty vector). *)
Definition one_failed : solver :=
  set_trial_statistics [mkTrial 0 []; mkTrial 1 [1 # 3]]
    (set_next_tid 2 (set_clock 50 demo_supplied)).

(** A pool that never finishes anything, and the supplied solver with two
    futures in flight. *)
Definition stuck_world : env :=
  mkEnv (initial_design demo_world) (fun _ _ => false) square_objective
    (model_train demo_world) (maximize demo_world) (wall_clock demo_world)
    (json_dump demo_world).

Definition two_in_flight : solver :=
  set_trial_statistics [mkTrial 0 [1 # 5]; mkTrial 1 [1 # 10]]
    (set_next_tid 2 (set_clock 13 demo_supplied)).

(** The supplied solver with one future in flight. *)
Definition one_in_flight : solver :=
  set_trial_statistics [mkTrial 0 [1 # 5]]
    (set_next_tid 1 (set_clock 6 demo_supplied)).

(** ** The pool *)

(** Every future of [l] reports done from logical time [T] on. *)
Definition finished_from (world : env) (T : nat) (l : list trial) : Prop :=
  forall t c, In t l -> (T <= c)%nat -> done_at world c (tid t) = true.

(** A future that has reported done keeps reporting done. *)
Definition monotone_pool (world : env) : Prop :=
  forall i c c', (c <= c')%nat ->
    done_at world c i = true -> done_at world c' i = true.

(** The supplied solver right after two submissions. *)
Definition two_just_submitted : solver :=
  set_trial_statistics [mkTrial 0 [1 # 5]; mkTrial 1 [1 # 10]]
    (set_next_tid 2 demo_supplied).

(** ** The dataset *)

(** [X] and [y] are both absent, or hold as many rows as values. *)
Definition well_formed_dataset (Xo : option ndarray)
    (yo : option yarray) : Prop :=
  match Xo, yo with
  | None, None => True
  | Some A, Some (Floats ys) => nrows A = length ys
  | _, _ => False
  end.

Definition well_formed (s : solver) : Prop := well_formed_dataset (X s) (y s).

(** ** Accounting for the trials *)

(** Observations in the dataset, plus futures in flight, minus submissions
    made. *)
Definition balance (s : solver) : Z :=
  Z.of_nat (length (dataset_y s)) + in_flight s - submissions (log s).

(** Nothing was submitted or harvested. *)
Definition neutral (s s' : solver) : Prop :=
  dataset_y s' = dataset_y s /\
  trial_statistics s' = trial_statistics s /\
  submissions (log s') = submissions (log s).

(** ** The initial design *)

(** The futures that submitting the rows of [l] creates, the first of them
    with identifier [id]. *)
Fixpoint numbered (id : nat) (l : list point) : list trial :=
  match l with
  | [] => []
  | x :: l' => mkTrial id x :: numbered (S id) l'
  end.

(** [yv] is the value the worker of future [t] handed back. *)
Definition value_of (world : env) (t : trial) (yv : double) : Prop :=
  exists d x', evaluate_func world (tid t) (targ t) = Some (yv, d, x').

(** The time histories and the in-flight list are untouched. *)
Definition same_overhead (s s' : solver) : Prop :=
  time_overhead s' = time_overhead s /\
  trial_statistics s' = trial_statistics s.

(** ** The records of the output directory *)

(** The record that [save_output it] writes in state [s], if the five
    histories are long enough. *)
Definition record_at (s : solver) (it : nat) : option saved :=
  match nth_error (time_overhead s) it, nth_error (runtime s) it,
        nth_error (incumbents s) it, nth_error (incumbents_values s) it,
        nth_error (time_func_evals s) it with
  | Some o, Some r, Some inc, Some v, Some f => Some (mkSaved o r inc v f it)
  | _, _, _, _, _ => None
  end.

(** The five histories hold [i] entries each. *)
Definition synced (s : solver) (i : nat) : Prop :=
  length (time_overhead s) = i /\ length (runtime s) = i /\
  length (incumbents s) = i /\ length (incumbents_values s) = i /\
  length (time_func_evals s) = i.

(** What could be written in [s] can be written in [s'], and is the same. *)
Definition records_kept (s s' : solver) : Prop :=
  forall j r, record_at s j = Some r -> record_at s' j = Some r.

Definition is_save (e : event) : bool :=
  match e with EvSave _ _ => true | _ => false end.

(** The records written so far. *)
Definition saves (s : solver) : list event := filter is_save (log s).

(** Nothing was written and the five histories are untouched. *)
Definition no_save (s s' : solver) : Prop :=
  saves s' = saves s /\
  time_overhead s' = time_overhead s /\ runtime s' = runtime s /\
  incumbents s' = incumbents s /\
  incumbents_values s' = incumbents_values s /\
  time_func_evals s' = time_func_evals s.

(** Exceptions that come from a write to the output directory [dir]. *)
Definition raised_by_json_dump (world : env) (dir : string) (e : exn) : Prop :=
  exists c it r, json_dump world c dir it r = Some e.

(** The events that write the records [recs] under the keys [i], [i+1], ... *)
Definition save_events (i : nat) (recs : list saved) : list event :=
  map (fun p => EvSave (fst p) (snd p)) (combine (seq i (length recs)) recs).

(** ** Scenarios for the incumbent histories *)

(** An objective that yields NaN on the second trial. *)
Definition nan_objective (i : nat) (x : point) : option (double * Q * point) :=
  match i with
  | 1%nat => Some (NaN, 1%Q, x)
  | _ => square_objective i x
  end.

Definition nan_world : env :=
  mkEnv (initial_design demo_world) (done_at demo_world) nan_objective
    (model_train demo_world) (maximize demo_world) (wall_clock demo_world)
    (json_dump demo_world).

(** A solver that has already been run once. *)
Definition used_solver : solver :=
  snd (run demo_cfg demo_world 9 4 None None (new_solver demo_world)).

(** [v] is the least of the values [ys] in the order of doubles. *)
Definition least_value (ys : list double) (v : double) : Prop :=
  In v ys /\ forall w, In w ys -> dle v w = true.

(** Python's builtin [min]: it keeps its first item unless a later one is
    strictly smaller. *)
Fixpoint python_min_from (best : double) (l : list double) : double :=
  match l with
  | [] => best
  | v :: l' => python_min_from (if dlt v best then v else best) l'
  end.

Definition python_min (l : list double) : option double :=
  match l with
  | [] => None
  | v :: l' => Some (python_min_from v l')
  end.

(** * Reasoning about programs of the control thread *)

Section Frame.

Variable R : solver -> solver -> Prop.
Hypothesis R_refl : forall s, R s s.
Hypothesis R_trans : forall s1 s2 s3, R s1 s2 -> R s2 s3 -> R s1 s3.

Lemma respects_ret {A} (a : A) : respects R (ret a).
Proof. intros s. apply R_refl. Qed.

Lemma respects_raise {A} e : respects R (@raise A e).
Proof. intros s. apply R_refl. Qed.

Lemma respects_out_of_fuel {A} : respects R (@out_of_fuel A).
Proof. intros s. apply R_refl. Qed.

Lemma respects_get : respects R get.
Proof. intros s. apply R_refl. Qed.

Lemma respects_modify f : (forall s, R s (f s)) -> respects R (modify f).
Proof. intros H s. apply H. Qed.

Lemma respects_bind {A B} (c : M A) (k : A -> M B) :
  respects R c -> (forall a, respects R (k a)) -> respects R (bind c k).
Proof.
  intros Hc Hk s. unfold bind.
  specialize (Hc s). destruct (c s) as [[a | e |] s1]; simpl in *; auto.
  eapply R_trans; [exact Hc | apply Hk].
Qed.

Lemma respects_index {A} (l : list A) i : respects R (index l i).
Proof.
  unfold index. destruct (nth_error l i); [apply respects_ret | apply respects_raise].
Qed.

Lemma respects_last_item {A} (l : list A) : respects R (last_item l).
Proof.
  unfold last_item. destruct (rev l); [apply respects_raise | apply respects_ret].
Qed.

(** What [R] has to tolerate, one hypothesis per kind of update. *)
Hypothesis R_clock : forall s v, R s (set_clock v s).
Hypothesis R_log : forall s e, R s (set_log (log s ++ [e]) s).
Hypothesis R_next_tid : forall s v, R s (set_next_tid v s).
Hypothesis R_rng : forall s v, R s (set_rng v s).
Hypothesis R_time_func_evals : forall s v, R s (set_time_func_evals v s).
Hypothesis R_time_overhead : forall s v, R s (set_time_overhead v s).
Hypothesis R_runtime : forall s v, R s (set_runtime v s).
Hypothesis R_time_start : forall s v, R s (set_time_start v s).
Hypothesis R_X : forall s v, R s (set_X v s).
Hypothesis R_y : forall s v, R s (set_y v s).
Hypothesis R_incumbents : forall s v, R s (set_incumbents v s).
Hypothesis R_incumbents_values : forall s v, R s (set_incumbents_values v s).
Hypothesis R_remove :
  forall s t, R s (set_trial_statistics (remove_trial t (trial_statistics s)) s).
Hypothesis R_append :
  forall s t, R s (set_trial_statistics (trial_statistics s ++ [t]) s).
Hypothesis R_reset : forall s, R s (set_trial_statistics [] s).

Variable cfg : config.
Variable world : env.

Create HintDb frame discriminated.

Ltac frame :=
  repeat first
    [ solve [auto with frame nocore]
    | apply respects_ret | apply respects_raise | apply respects_out_of_fuel
    | apply respects_get | apply respects_index | apply respects_last_item
    | apply respects_modify; intros; solve [auto]
    | apply respects_bind; [ | intros ]
    | match goal with
      | |- respects _ (if ?b then _ else _) => destruct b
      | |- respects _ (match ?x with _ => _ end) => destruct x
      end ].

Lemma respects_tick_clock : respects R tick_clock.
Proof. unfold tick_clock. frame. Qed.
Local Hint Resolve respects_tick_clock : frame.

Lemma respects_emit e : respects R (emit e).
Proof. unfold emit. frame. Qed.
Local Hint Resolve respects_emit : frame.

Lemma respects_time_time : respects R (time_time world).
Proof. unfold time_time. frame. Qed.
Local Hint Resolve respects_time_time : frame.

Lemma respects_sleep : respects R sleep.
Proof. unfold sleep. frame. Qed.
Local Hint Resolve respects_sleep : frame.

Lemma respects_done t : respects R (done world t).
Proof. unfold done. frame. Qed.
Local Hint Resolve respects_done : frame.

Lemma respects_result t : respects R (result world t).
Proof. unfold result. frame. Qed.
Local Hint Resolve respects_result : frame.

Lemma respects_submit x : respects R (submit x).
Proof. unfold submit. frame. Qed.
Local Hint Resolve respects_submit : frame.

Lemma respects_sample n : respects R (sample cfg world n).
Proof. unfold sample. frame. Qed.
Local Hint Resolve respects_sample : frame.

Lemma respects_save_output it : respects R (save_output cfg world it).
Proof. unfold save_output. frame. Qed.
Local Hint Resolve respects_save_output : frame.

Lemma respects_choose_next Xa ya b : respects R (choose_next cfg world Xa ya b).
Proof. unfold choose_next. frame. Qed.
Local Hint Resolve respects_choose_next : frame.

Lemma respects_harvest t : respects R (harvest cfg world t).
Proof.
  unfold harvest. apply respects_bind; [frame | intros [[new_y tt] new_x]].
  frame.
Qed.
Local Hint Resolve respects_harvest : frame.

Lemma respects_collect_from n : forall i, respects R (collect_from cfg world n i).
Proof.
  induction n as [| n IH]; intros i s; simpl.
  - destruct (nth_error (trial_statistics s) i); apply R_refl.
  - destruct (nth_error (trial_statistics s) i) as [t |]; [| apply R_refl].
    revert s. change (respects R (b <- done world t ;;
                       (if b then harvest cfg world t else ret tt) ;;
                       collect_from cfg world n (S i))).
    frame.
Qed.

Lemma respects_collect : respects R (collect cfg world).
Proof. intros s. unfold collect. apply respects_collect_from. Qed.
Local Hint Resolve respects_collect : frame.

Lemma respects_scan l : respects R (scan world l).
Proof. induction l as [| t l IH]; simpl; frame. Qed.
Local Hint Resolve respects_scan : frame.

Lemma respects_wait_all fuel : respects R (wait_all world fuel).
Proof. induction fuel as [| fuel IH]; simpl; frame. Qed.
Local Hint Resolve respects_wait_all : frame.

Lemma respects_submit_all init : respects R (submit_all init).
Proof. induction init as [| x init IH]; simpl; frame. Qed.
Local Hint Resolve respects_submit_all : frame.

Lemma respects_init_harvest o init trials :
  forall i Xl yl, respects R (init_harvest cfg world o init i trials Xl yl).
Proof.
  induction trials as [| t trials IH]; intros i Xl yl; simpl; [frame |].
  apply respects_bind; [frame | intros [[new_y tt] x0]].
  frame.
Qed.
Local Hint Resolve respects_init_harvest : frame.

Lemma respects_initial_phase fuel : respects R (initial_phase cfg world fuel).
Proof. unfold initial_phase. frame. Qed.
Local Hint Resolve respects_initial_phase : frame.

Lemma respects_admission c : respects R (admission cfg world c).
Proof. unfold admission. frame. Qed.
Local Hint Resolve respects_admission : frame.

Lemma respects_tick c : respects R (tick cfg world c).
Proof. unfold tick. frame. Qed.
Local Hint Resolve respects_tick : frame.

Lemma respects_main_loop fuel n : forall c, respects R (main_loop cfg world fuel n c).
Proof. induction fuel as [| fuel IH]; intros c; simpl; frame. Qed.
Local Hint Resolve respects_main_loop : frame.

Lemma respects_drain fuel : respects R (drain cfg world fuel).
Proof. unfold drain. frame. Qed.
Local Hint Resolve respects_drain : frame.

Lemma respects_run fuel n Xa ya : respects R (run cfg world fuel n Xa ya).
Proof. unfold run. frame. Qed.

End Frame.


Lemma triple_ret {A} (P : solver -> Prop) (a : A) (Q : A -> solver -> Prop) E :
  (forall s, P s -> Q a s) -> triple P (ret a) Q E.
Proof. intros H s Hs. simpl. auto. Qed.

Lemma triple_raise {A} (P : solver -> Prop) e (Q : A -> solver -> Prop)
    (E : solver -> Prop) :
  (forall s, P s -> E s) -> triple P (raise e) Q E.
Proof. intros H s Hs. simpl. auto. Qed.

Lemma triple_out_of_fuel {A} (P : solver -> Prop) (Q : A -> solver -> Prop)
    (E : solver -> Prop) :
  (forall s, P s -> E s) -> triple P out_of_fuel Q E.
Proof. intros H s Hs. simpl. auto. Qed.

Lemma triple_get (P : solver -> Prop) E :
  triple P get (fun a s => a = s /\ P s) E.
Proof. intros s Hs. simpl. auto. Qed.

Lemma triple_modify (P : solver -> Prop) f (Q : unit -> solver -> Prop) E :
  (forall s, P s -> Q tt (f s)) -> triple P (modify f) Q E.
Proof. intros H s Hs. simpl. auto. Qed.

Lemma triple_bind {A B} (P : solver -> Prop) (c : M A) (k : A -> M B)
    (Mid : A -> solver -> Prop) (Q : B -> solver -> Prop) E :
  triple P c Mid E -> (forall a, triple (Mid a) (k a) Q E) ->
  triple P (bind c k) Q E.
Proof.
  intros Hc Hk s Hs. unfold bind. specialize (Hc s Hs).
  destruct (c s) as [[a | e |] s1]; auto.
  apply (Hk a s1 Hc).
Qed.

Lemma triple_conseq {A} (P P' : solver -> Prop) (c : M A)
    (Q Q' : A -> solver -> Prop) (E E' : solver -> Prop) :
  triple P' c Q' E' ->
  (forall s, P s -> P' s) -> (forall a s, Q' a s -> Q a s) ->
  (forall s, E' s -> E s) ->
  triple P c Q E.
Proof.
  intros H HP HQ HE s Hs. specialize (H s (HP s Hs)).
  destruct (c s) as [[a | e |] s1]; auto.
Qed.

(** A program that respects [R] keeps every predicate that [R] transports. *)
Lemma triple_of_respects {A} (R : solver -> solver -> Prop) (c : M A)
    (P : solver -> Prop) :
  respects R c -> (forall s s', P s -> R s s' -> P s') ->
  triple P c (fun _ => P) P.
Proof.
  intros Hc HP s Hs. specialize (Hc s).
  destruct (c s) as [[a | e |] s1]; simpl in Hc; eauto.
Qed.

(** The state a triple speaks about, whatever the outcome. *)
Lemma triple_final {A} (P : solver -> Prop) (c : M A) (I : solver -> Prop) s :
  triple P c (fun _ => I) I -> P s -> I (snd (c s)).
Proof.
  intros H Hs. specialize (H s Hs). destruct (c s) as [[a | e |] s1]; auto.
Qed.

(** ** The in-flight bound *)

Lemma remove_trial_length t l :
  (length (remove_trial t l) <= length l)%nat.
Proof.
  induction l as [| u l IH]; simpl; [lia |].
  destruct (Nat.eqb (tid u) (tid t)); simpl; lia.
Qed.

Ltac same_in_flight_tac :=
  unfold same_in_flight; intros; simpl; congruence.

Section InFlight.

Variable cfg : config.
Variable world : env.

Lemma collect_no_more_in_flight : respects no_more_in_flight (collect cfg world).
Proof.
  apply respects_collect; unfold no_more_in_flight; intros; simpl;
    try lia; try apply remove_trial_length.
Qed.

Lemma admission_sleeps c s :
  (2 * num_workers cfg < in_flight s)%Z ->
  admission cfg world c s =
    (Ret c, set_clock (S (clock s)) (set_log (log s ++ [EvSleep]) s)).
Proof.
  intros H. unfold admission, bind at 1, get.
  apply Z.ltb_lt in H. unfold in_flight in H. rewrite H. reflexivity.
Qed.

(** The [else] branch of the admission test: the in-flight list is extended
    by exactly the future that [submit] returned, and only if everything
    before the submission went through. *)
Lemma admission_submits c s :
  (in_flight s <= 2 * num_workers cfg)%Z ->
  trial_statistics (snd (admission cfg world c s)) = trial_statistics s \/
  exists t, trial_statistics (snd (admission cfg world c s)) =
            trial_statistics s ++ [t].
Proof.
  intros H. apply Z.ltb_ge in H. unfold in_flight in H.
  remember (admission cfg world c s) as r eqn:Er.
  unfold admission, bind at 1, get in Er. rewrite H in Er.
  match type of Er with _ = ?c s => set (prog := c) in Er end.
  subst r. set (l := trial_statistics s).
  apply (triple_final (P := fun s' => trial_statistics s' = l)
           (I := fun s' => trial_statistics s' = l \/
                           exists t, trial_statistics s' = l ++ [t]) (c := prog));
    [| reflexivity].
  assert (keep : forall A (c : M A), respects same_in_flight c ->
            triple (fun s' => trial_statistics s' = l) c
              (fun _ s' => trial_statistics s' = l)
              (fun s' => trial_statistics s' = l \/
                         exists t, trial_statistics s' = l ++ [t])).
  { intros A c0 Hc. eapply triple_conseq.
    - apply (triple_of_respects (fun s' => trial_statistics s' = l) Hc).
      unfold same_in_flight. intros; congruence.
    - auto.
    - simpl; auto.
    - simpl; auto. }
  subst prog.
  eapply triple_bind with (Mid := fun _ s' => trial_statistics s' = l).
  { destruct (Z.eqb (train_interval cfg) 0);
      [apply triple_raise | apply triple_ret]; auto. }
  intros do_optimize.
  eapply triple_bind; [apply keep; apply respects_time_time; same_in_flight_tac |].
  intros start.
  eapply triple_bind;
    [apply keep; apply respects_choose_next; same_in_flight_tac |].
  intros new_x.
  eapply triple_bind; [apply keep; apply respects_time_time; same_in_flight_tac |].
  intros t_end.
  eapply triple_bind;
    [apply keep; apply respects_modify; same_in_flight_tac |].
  intros ?.
  eapply triple_bind; [apply keep; apply respects_submit; same_in_flight_tac |].
  intros t.
  eapply triple_bind with (Mid := fun _ s' => trial_statistics s' = l ++ [t]).
  { apply triple_modify. intros s1 H1. simpl. rewrite H1. reflexivity. }
  intros ?. apply triple_ret. intros s1 H1. right. eauto.
Qed.


Lemma tick_instant s0 c s :
  loop_instant cfg world s0 s -> loop_instant cfg world s0 (snd (tick cfg world c s)).
Proof.
  intros H. unfold tick, bind.
  pose proof (after_admission c H) as Ha.
  destruct (admission cfg world c s) as [[c' | e |] s1]; simpl in *; auto.
  pose proof (after_collect Ha) as Hc.
  destruct (collect cfg world s1) as [[[] | e |] s2]; simpl in *; auto.
Qed.

Lemma main_loop_instant s0 fuel n :
  forall c s, loop_instant cfg world s0 s ->
    loop_instant cfg world s0 (snd (main_loop cfg world fuel n c s)).
Proof.
  induction fuel as [| fuel IH]; intros c s H; simpl.
  - destruct (c <? n)%Z; simpl; auto.
  - destruct (c <? n)%Z; simpl; auto.
    unfold bind. pose proof (tick_instant c H) as Ht.
    destruct (tick cfg world c s) as [[c' | e |] s1]; simpl in *; auto.
Qed.

Lemma loop_instant_bounded s0 s :
  (0 <= num_workers cfg)%Z -> trial_statistics s0 = [] ->
  loop_instant cfg world s0 s -> (in_flight s <= 2 * num_workers cfg + 1)%Z.
Proof.
  intros HN H0 H. induction H as [| c s H IH | s H IH].
  - unfold in_flight. rewrite H0. simpl length. lia.
  - destruct (Z.lt_ge_cases (2 * num_workers cfg) (in_flight s)) as [Hfull | Hroom].
    + rewrite (admission_sleeps c s Hfull). exact IH.
    + destruct (admission_submits c s Hroom) as [E | [t E]];
        unfold in_flight in *; rewrite E; [exact IH |].
      rewrite length_app. simpl length. lia.
  - pose proof (collect_no_more_in_flight s) as Hc.
    unfold no_more_in_flight, in_flight in *. lia.
Qed.

End InFlight.

(** C5.  In the main loop the in-flight list never holds more than
    [2 * n_workers + 1] futures, at any instant between admission steps and
    harvests and at every head of the loop; when more than [2 * n_workers]
    futures are in flight the admission step only sleeps, leaving the list and
    the counter as they are, and otherwise it adds at most the one future it
    submitted. *)
Theorem in_flight_never_exceeds_cap (cfg : config) (world : env) (s0 : solver) :
  (0 <= num_workers cfg)%Z ->
  trial_statistics s0 = [] ->
  (forall s, loop_instant cfg world s0 s ->
     (in_flight s <= 2 * num_workers cfg + 1)%Z) /\
  (forall fuel n c,
     (in_flight (snd (main_loop cfg world fuel n c s0))
      <= 2 * num_workers cfg + 1)%Z) /\
  (forall c s, (2 * num_workers cfg < in_flight s)%Z ->
     admission cfg world c s =
       (Ret c, set_clock (S (clock s)) (set_log (log s ++ [EvSleep]) s))) /\
  (forall c s, (in_flight s <= 2 * num_workers cfg)%Z ->
     trial_statistics (snd (admission cfg world c s)) = trial_statistics s \/
     exists t, trial_statistics (snd (admission cfg world c s)) =
               trial_statistics s ++ [t]).
Proof.
  intros HN H0. repeat split.
  - intros s H. exact (loop_instant_bounded HN H0 H).
  - intros fuel n c. apply (@loop_instant_bounded cfg world s0 _ HN H0).
    apply main_loop_instant. constructor.
  - intros c s. apply admission_sleeps.
  - intros c s. apply admission_submits.
Qed.

Lemma in_flight_never_exceeds_cap_witness :
  (0 <= num_workers demo_cfg)%Z /\
  trial_statistics (new_solver demo_world) = [] /\
  (in_flight (snd (main_loop demo_cfg demo_world 9 6 2 (new_solver demo_world)))
   <= 2 * num_workers demo_cfg + 1)%Z.
Proof.
  assert (HN : (0 <= num_workers demo_cfg)%Z) by (simpl; lia).
  assert (H0 : trial_statistics (new_solver demo_world) = []) by reflexivity.
  split; [exact HN | split; [exact H0 |]].
  apply (@in_flight_never_exceeds_cap demo_cfg demo_world _ HN H0).
Defined.

(** * The bound on the rounds of [collect] is never reached *)

Section CollectTotal.

Variable cfg : config.
Variable world : env.

Lemma harvest_not_out_of_fuel t s :
  fst (harvest cfg world t s) <> OutOfFuel.
Proof.
  unfold harvest, result.
  destruct (evaluate_func world (tid t) (targ t)) as [[[new_y taken] new_x] |];
    [| simpl; discriminate].
  unfold bind, modify, get, ret, raise, index, time_time, tick_clock. simpl.
  destruct (X s) as [A0 |]; simpl; [| discriminate].
  destruct (append_row A0 new_x) as [A |]; simpl; [| discriminate].
  destruct (y s) as [[ys | ys] |]; simpl; try discriminate.
  destruct (argmin (ys ++ [new_y])) as [b |]; simpl; [| discriminate].
  destruct (nth_error (rows_of A) b); simpl; [| discriminate].
  destruct (nth_error (ys ++ [new_y]) b); simpl; [| discriminate].
  destruct (output_path cfg); simpl; discriminate.
Qed.

Lemma harvest_no_more_in_flight t :
  respects no_more_in_flight (harvest cfg world t).
Proof.
  apply respects_harvest; unfold no_more_in_flight; intros; simpl;
    try lia; try apply remove_trial_length.
Qed.

Lemma collect_from_enough n :
  forall i s,
    (length (trial_statistics s) <= n + i)%nat ->
    fst (collect_from cfg world n i s) <> OutOfFuel.
Proof.
  induction n as [| n IH]; intros i s Hlen; simpl.
  - destruct (nth_error (trial_statistics s) i) eqn:E; simpl; [| discriminate].
    exfalso. assert (nth_error (trial_statistics s) i = None)
      by (apply nth_error_None; lia). congruence.
  - destruct (nth_error (trial_statistics s) i) as [t |]; simpl;
      [| discriminate].
    unfold bind at 1. unfold done at 1, bind, get, tick_clock, modify, ret.
    simpl.
    set (s1 := set_clock (S (clock s)) s).
    destruct (done_at world (clock s) (tid t)).
    + pose proof (harvest_not_out_of_fuel t s1) as Hh.
      pose proof (harvest_no_more_in_flight t s1) as Hs.
      unfold no_more_in_flight in Hs.
      destruct (harvest cfg world t s1) as [[[] | e |] s2]; simpl in *;
        [| discriminate | congruence].
      apply IH. lia.
    + simpl. apply IH. subst s1. simpl. lia.
Qed.

Lemma collect_total s : fst (collect cfg world s) <> OutOfFuel.
Proof. unfold collect. apply collect_from_enough. lia. Qed.

End CollectTotal.

(** ** Loops that have nothing to do *)

Section Idle.

Variable cfg : config.
Variable world : env.

Lemma main_loop_exit fuel n c s :
  (n <= c)%Z -> main_loop cfg world fuel n c s = (Ret tt, s).
Proof.
  intros H. apply Z.ltb_ge in H. destruct fuel; simpl; rewrite H; reflexivity.
Qed.

Lemma main_loop_no_fuel n c s :
  (c < n)%Z -> main_loop cfg world 0 n c s = (OutOfFuel, s).
Proof. intros H. apply Z.ltb_lt in H. simpl. rewrite H. reflexivity. Qed.

Lemma wait_all_nil fuel s :
  trial_statistics s = [] -> wait_all world fuel s = (Ret tt, s).
Proof.
  intros H. destruct fuel; unfold wait_all, bind, get; rewrite H; reflexivity.
Qed.

Lemma collect_nil s :
  trial_statistics s = [] -> collect cfg world s = (Ret tt, s).
Proof. intros H. unfold collect. rewrite H. simpl. rewrite H. reflexivity. Qed.

Lemma drain_nil fuel s :
  trial_statistics s = [] -> drain cfg world fuel s = (Ret tt, s).
Proof.
  intros H. unfold drain, bind at 1, get. rewrite H. simpl.
  unfold bind. rewrite (wait_all_nil fuel s H). apply (collect_nil s H).
Qed.

(** With futures in flight the final block is skipped as a whole. *)
Lemma drain_skipped fuel s :
  trial_statistics s <> [] -> drain cfg world fuel s = (Ret tt, s).
Proof.
  intros H. unfold drain, bind, get.
  destruct (trial_statistics s); [congruence | reflexivity].
Qed.

End Idle.

Lemma run_supplied cfg world fuel n X0 ya s :
  run cfg world fuel n (Some X0) ya s =
  (main_loop cfg world fuel n (init_points cfg) ;;
   drain cfg world fuel ;;
   s <- get ;;
   inc <- last_item (incumbents s) ;;
   inc_value <- last_item (incumbents_values s) ;;
   ret (inc, inc_value)) (after_supplied world (Some X0) ya s).
Proof. reflexivity. Qed.

(** C10.  Called on a freshly constructed solver with a dataset supplied and
    [num_iterations <= initial_points], [run] never enters the loop body:
    nothing is sampled, chosen, submitted or harvested, no incumbent is
    recorded, and the final [self.incumbents[-1]] is an [IndexError]. *)
Theorem run_without_iterations_raises (cfg : config) (world : env) (fuel : nat)
    (num_iterations : Z) (X0 : ndarray) (y0 : yarray) :
  (num_iterations <= init_points cfg)%Z ->
  let r := run cfg world fuel num_iterations (Some X0) (Some y0)
             (new_solver world) in
  fst r = Raise IndexError /\
  log (snd r) = [] /\
  next_tid (snd r) = 0%nat /\
  incumbents (snd r) = [] /\
  incumbents_values (snd r) = [] /\
  X (snd r) = Some X0 /\
  y (snd r) = Some y0.
Proof.
  intros H r.
  assert (Hr : r = (Raise IndexError,
                    after_supplied world (Some X0) (Some y0) (new_solver world))).
  { subst r. rewrite run_supplied.
    unfold bind at 1. rewrite (main_loop_exit cfg world fuel _ H).
    unfold bind at 1. rewrite drain_nil by reflexivity.
    reflexivity. }
  rewrite Hr. simpl. repeat split; reflexivity.
Qed.

Lemma run_without_iterations_raises_witness :
  fst (run demo_cfg demo_world 5 2 (Some (Matrix 1 [[1 # 2]]))
         (Some (Floats [Num (1 # 4)]))
         (new_solver demo_world)) = Raise IndexError.
Proof.
  apply (@run_without_iterations_raises demo_cfg demo_world 5 2
           (Matrix 1 [[1 # 2]]) (Floats [Num (1 # 4)])).
  simpl. lia.
Defined.

(** ** The trace of the main loop *)

Lemma flags_follow_app cfg c evs1 evs2 :
  flags_follow cfg c (evs1 ++ evs2) <->
  flags_follow cfg c evs1 /\ flags_follow cfg (c + submissions evs1) evs2.
Proof.
  revert c. induction evs1 as [| e evs1 IH]; intros c;
    cbn [flags_follow submissions app].
  - rewrite Z.add_0_r. tauto.
  - destruct e; try (rewrite IH; tauto).
    rewrite IH. replace (c + 1 + submissions evs1)%Z
      with (c + (1 + submissions evs1))%Z by lia. tauto.
Qed.

Lemma flags_follow_train cfg c pre Xa ya b post :
  flags_follow cfg c (pre ++ EvTrain Xa ya b :: post) ->
  b = retrain_flag cfg (c + submissions pre).
Proof.
  intros H. apply flags_follow_app in H. destruct H as [_ H]. simpl in H. tauto.
Qed.

Lemma submissions_app evs1 evs2 :
  submissions (evs1 ++ evs2) = (submissions evs1 + submissions evs2)%Z.
Proof.
  induction evs1 as [| e evs1 IH]; cbn [submissions app]; [reflexivity |].
  destruct e; rewrite ?IH; lia.
Qed.

Lemma choosing_flags cfg c Xa ya evs :
  Forall (choosing Xa ya (retrain_flag cfg c)) evs ->
  flags_follow cfg c evs /\ submissions evs = 0%Z.
Proof.
  induction 1 as [| e evs He _ IH]; simpl; [auto |].
  destruct IH as [IH1 IH2].
  destruct He as [-> | [-> | [-> | ->]]]; auto.
Qed.

Section Trace.

Variable cfg : config.
Variable world : env.

Lemma choose_next_log Xa ya b s :
  exists evs,
    log (snd (choose_next cfg world Xa ya b s)) =
      log s ++ EvChooseNext Xa ya b :: evs /\
    Forall (choosing Xa ya b) evs.
Proof.
  unfold choose_next, sample, emit, tick_clock, index, modify, get, bind, ret,
    raise, choosing.
  destruct Xa as [Xs |], ya as [ys |]; simpl;
    repeat match goal with
    | |- context [if ?c then _ else _] => destruct c; simpl
    | |- context [match initial_design ?w ?lo ?up ?n ?r with _ => _ end] =>
        destruct (initial_design w lo up n r); simpl
    end;
    repeat rewrite <- app_assoc; simpl;
    eexists; (split; [reflexivity |]);
    repeat first [apply Forall_nil | apply Forall_cons; [intuition reflexivity |]].
Qed.

Lemma choose_next_triple L Xa ya b :
  let P := fun s' => exists evs,
             log s' = L ++ EvChooseNext Xa ya b :: evs /\
             Forall (choosing Xa ya b) evs in
  triple (fun s => log s = L) (choose_next cfg world Xa ya b) (fun _ => P) P.
Proof.
  intros P s HL. subst P.
  destruct (choose_next_log Xa ya b s) as [evs [E F]]. rewrite HL in E.
  destruct (choose_next cfg world Xa ya b s) as [[x | e |] s1]; simpl in *; eauto.
Qed.

Lemma triple_keep {A} (R : solver -> solver -> Prop) (c : M A)
    (P E : solver -> Prop) :
  respects R c -> (forall s s', P s -> R s s' -> P s') ->
  (forall s, P s -> E s) ->
  triple P c (fun _ => P) E.
Proof.
  intros Hc HR HE. eapply triple_conseq.
  - exact (triple_of_respects P Hc HR).
  - auto.
  - simpl; auto.
  - auto.
Qed.

(** [time.time()] and [pool.submit] always return. *)
Lemma time_time_triple (P E : solver -> Prop) :
  (forall s v, P s -> P (set_clock v s)) ->
  triple P (time_time world) (fun _ => P) E.
Proof. intros H s Hs. simpl. auto. Qed.

Lemma submit_triple (P E : solver -> Prop) x :
  triple P (submit x)
    (fun t s' => exists s, P s /\
       s' = set_log (log s ++ [EvSubmit t]) (set_next_tid (S (next_tid s)) s))
    E.
Proof. intros s Hs. simpl. eauto. Qed.

(** What the admission step does when there is room for a submission. *)
Lemma admission_spec c s :
  (in_flight s <= 2 * num_workers cfg)%Z ->
  let b := retrain_flag cfg c in
  match admission cfg world c s with
  | (Ret c', s') =>
      c' = (c + 1)%Z /\
      exists evs t,
        log s' = log s ++ EvChooseNext (X s) (y s) b :: evs ++ [EvSubmit t] /\
        Forall (choosing (X s) (y s) b) evs
  | (_, s') =>
      (s' = s /\ train_interval cfg = 0%Z) \/
      exists evs,
        log s' = log s ++ EvChooseNext (X s) (y s) b :: evs /\
        Forall (choosing (X s) (y s) b) evs
  end.
Proof.
  intros H b. apply Z.ltb_ge in H. unfold in_flight in H.
  remember (admission cfg world c s) as r eqn:Er.
  unfold admission, bind at 1, get in Er. rewrite H in Er.
  match type of Er with _ = ?c s => set (prog := c) in Er end.
  subst r.
  set (Chosen := fun s' : solver => exists evs,
         log s' = log s ++ EvChooseNext (X s) (y s) b :: evs /\
         Forall (choosing (X s) (y s) b) evs).
  set (Failed := fun s' : solver =>
         (s' = s /\ train_interval cfg = 0%Z) \/ Chosen s').
  assert (T : triple (fun s' => s' = s) prog
            (fun c' s' => c' = (c + 1)%Z /\ exists evs t,
               log s' = log s ++ EvChooseNext (X s) (y s) b :: evs ++ [EvSubmit t] /\
               Forall (choosing (X s) (y s) b) evs)
            Failed).
  { subst prog.
    eapply triple_bind
      with (Mid := fun b' s' => b' = b /\ log s' = log s).
    { destruct (Z.eqb_spec (train_interval cfg) 0).
      - apply triple_raise. intros s' ->. left. split; [reflexivity | assumption].
      - apply triple_ret. intros s' ->. split; reflexivity. }
    intros b'.
    eapply triple_bind with (Mid := fun _ s' => b' = b /\ log s' = log s).
    { apply time_time_triple. intros s1 v [Hb H1]. split; [exact Hb | exact H1]. }
    intros start.
    eapply triple_bind with (Mid := fun _ => Chosen).
    { intros s1 [-> H1].
      pose proof (choose_next_triple (X s) (y s) b H1) as T.
      destruct (choose_next cfg world (X s) (y s) b s1) as [[x | e |] s2];
        simpl in *; solve [exact T | right; exact T]. }
    intros new_x.
    eapply triple_bind with (Mid := fun _ => Chosen).
    { apply time_time_triple. intros s1 v H1. exact H1. }
    intros t_end.
    eapply triple_bind with (Mid := fun _ => Chosen).
    { apply triple_modify. intros s1 H1. exact H1. }
    intros ?.
    eapply triple_bind; [apply submit_triple |].
    intros t.
    eapply triple_bind with (Mid := fun _ s' => exists evs,
        log s' = log s ++ EvChooseNext (X s) (y s) b :: evs ++ [EvSubmit t] /\
        Forall (choosing (X s) (y s) b) evs).
    { apply triple_modify. intros s1 [s2 [[evs [E F]] ->]].
      exists evs. split; [| exact F].
      simpl. rewrite E. rewrite <- app_assoc. reflexivity. }
    intros ?. apply triple_ret.
    intros s1 [evs [E F]]. split; [reflexivity |]. exists evs, t. auto. }
  exact (T s eq_refl).
Qed.

Ltac same_log_tac := unfold same_log; intros; simpl; congruence.

Lemma collect_same_log : respects same_log (collect cfg world).
Proof. apply respects_collect; same_log_tac. Qed.

Lemma admission_trace c s :
  exists evs,
    log (snd (admission cfg world c s)) = log s ++ evs /\
    flags_follow cfg c evs /\
    match fst (admission cfg world c s) with
    | Ret c' => c' = (c + submissions evs)%Z
    | _ => True
    end.
Proof.
  destruct (Z.lt_ge_cases (2 * num_workers cfg) (in_flight s)) as [Hfull | Hroom].
  - rewrite (admission_sleeps cfg world c s Hfull). exists [EvSleep]. simpl.
    repeat split; auto. lia.
  - pose proof (admission_spec c s Hroom) as H. cbv zeta in H.
    destruct (admission cfg world c s) as [[c' | e |] s1]; simpl.
    + destruct H as [-> [evs [t [E F]]]].
      apply choosing_flags in F. destruct F as [F1 F2].
      exists (EvChooseNext (X s) (y s) (retrain_flag cfg c) :: evs ++ [EvSubmit t]).
      split; [exact E |]. split.
      * simpl. apply flags_follow_app. split; [exact F1 | simpl; exact I].
      * cbn [submissions]. rewrite submissions_app, F2. simpl. reflexivity.
    + destruct H as [[-> _] | [evs [E F]]].
      * exists []. rewrite app_nil_r. simpl. auto.
      * apply choosing_flags in F. destruct F as [F1 F2].
        eexists. split; [exact E |]. simpl. auto.
    + destruct H as [[-> _] | [evs [E F]]].
      * exists []. rewrite app_nil_r. simpl. auto.
      * apply choosing_flags in F. destruct F as [F1 F2].
        eexists. split; [exact E |]. simpl. auto.
Qed.

Lemma tick_trace c s :
  exists evs,
    log (snd (tick cfg world c s)) = log s ++ evs /\
    flags_follow cfg c evs /\
    match fst (tick cfg world c s) with
    | Ret c' => c' = (c + submissions evs)%Z
    | _ => True
    end.
Proof.
  destruct (admission_trace c s) as [evs [E [F C]]].
  exists evs. unfold tick, bind.
  destruct (admission cfg world c s) as [[c' | e |] s1]; simpl in *; auto.
  pose proof (collect_same_log s1) as Hc. unfold same_log in Hc.
  destruct (collect cfg world s1) as [[[] | e |] s2]; simpl in *;
    rewrite Hc; auto.
Qed.

Lemma main_loop_trace fuel n :
  forall c s, exists evs,
    log (snd (main_loop cfg world fuel n c s)) = log s ++ evs /\
    flags_follow cfg c evs.
Proof.
  induction fuel as [| fuel IH]; intros c s; simpl.
  - exists []. rewrite app_nil_r.
    destruct (c <? n)%Z; simpl; auto.
  - destruct (c <? n)%Z; simpl;
      [| exists []; rewrite app_nil_r; simpl; auto].
    unfold bind. destruct (tick_trace c s) as [evs [E [F C]]].
    destruct (tick cfg world c s) as [[c' | e |] s1]; simpl in *; eauto.
    destruct (IH c' s1) as [evs' [E' F']].
    exists (evs ++ evs'). rewrite E', E, app_assoc. split; [reflexivity |].
    apply flags_follow_app. subst c'. auto.
Qed.

End Trace.

(** C7.  In the trace of the main loop, which [run] enters with its counter
    at [initial_points], every call of [model.train] carries
    [do_optimize = ((evaluate_counter + 1) % train_interval == 0)], where
    [evaluate_counter] is [initial_points] plus the number of submissions the
    loop has made before that call (harvests do not move it). *)
Theorem retrain_flag_follows_submission_count (cfg : config) (world : env)
    (fuel : nat) (num_iterations : Z) (s : solver)
    (pre : list event) (Xa : option ndarray) (ya : option yarray)
    (do_optimize : bool) (post : list event) :
  log (snd (main_loop cfg world fuel num_iterations (init_points cfg) s))
    = log s ++ pre ++ EvTrain Xa ya do_optimize :: post ->
  do_optimize =
    Z.eqb ((init_points cfg + submissions pre + 1) mod train_interval cfg) 0.
Proof.
  intros H.
  destruct (main_loop_trace cfg world fuel num_iterations (init_points cfg) s)
    as [evs [E F]].
  rewrite E in H. apply app_inv_head in H. subst evs.
  apply flags_follow_train in F. exact F.
Qed.

Lemma retrain_flag_follows_submission_count_witness :
  let pre :=
    [EvChooseNext (Some demo_X) (Some demo_y) false;
     EvTrain (Some demo_X) (Some demo_y) false;
     EvUpdate; EvMaximize; EvSubmit (mkTrial 0 [1 # 5]);
     EvChooseNext (Some (Matrix 1 [[1 # 2]; [1 # 4]; [1 # 5]]))
       (Some (Floats [Num (1 # 4); Num (1 # 16); Num (1 # 25)])) true]
  in
  true =
    Z.eqb ((init_points demo_cfg_every_second + submissions pre + 1)
           mod train_interval demo_cfg_every_second) 0.
Proof.
  intros pre.
  eapply (@retrain_flag_follows_submission_count demo_cfg_every_second
            demo_world 9 5 demo_supplied pre
            (Some (Matrix 1 [[1 # 2]; [1 # 4]; [1 # 5]]))
            (Some (Floats [Num (1 # 4); Num (1 # 16); Num (1 # 25)])) true
            [EvUpdate; EvMaximize; EvSubmit (mkTrial 1 [1 # 11]);
             EvChooseNext
               (Some (Matrix 1 [[1 # 2]; [1 # 4]; [1 # 5]; [1 # 11]]))
               (Some (Floats [Num (1 # 4); Num (1 # 16); Num (1 # 25);
                              Num (1 # 121)])) false;
             EvTrain
               (Some (Matrix 1 [[1 # 2]; [1 # 4]; [1 # 5]; [1 # 11]]))
               (Some (Floats [Num (1 # 4); Num (1 # 16); Num (1 # 25);
                              Num (1 # 121)])) false;
             EvUpdate; EvMaximize; EvSubmit (mkTrial 2 [1 # 17])]).
  vm_compute. reflexivity.
Defined.

(** ** [run] on a supplied dataset *)

Lemma log_grows_refl s : log_grows s s.
Proof. exists []. rewrite app_nil_r. reflexivity. Qed.

Lemma log_grows_trans s1 s2 s3 :
  log_grows s1 s2 -> log_grows s2 s3 -> log_grows s1 s3.
Proof.
  intros [e1 E1] [e2 E2]. exists (e1 ++ e2).
  rewrite E2, E1, app_assoc. reflexivity.
Qed.

Ltac log_grows_tac :=
  first
    [ exact log_grows_refl
    | exact log_grows_trans
    | intros;
      solve [ exists []; simpl; rewrite app_nil_r; reflexivity
            | eexists; simpl; reflexivity ] ].

Section Supplied.

Variable cfg : config.
Variable world : env.

Lemma collect_log_grows : respects log_grows (collect cfg world).
Proof. apply respects_collect; log_grows_tac. Qed.

Lemma main_loop_log_grows fuel n c :
  respects log_grows (main_loop cfg world fuel n c).
Proof. apply respects_main_loop; log_grows_tac. Qed.

Lemma drain_log_grows fuel : respects log_grows (drain cfg world fuel).
Proof. apply respects_drain; log_grows_tac. Qed.

(** The first thing the main loop does to the outside world, entered with no
    future in flight, is the call of [choose_next] on the stored dataset. *)
Lemma main_loop_first fuel n c s1 :
  trial_statistics s1 = [] -> (0 <= num_workers cfg)%Z ->
  let r := main_loop cfg world fuel n c s1 in
  let started := exists rest,
    log (snd r) = log s1 ++ EvChooseNext (X s1) (y s1) (retrain_flag cfg c) :: rest in
  (snd r = s1 \/ started) /\
  ((c < n)%Z -> fuel <> 0%nat -> train_interval cfg <> 0%Z -> started).
Proof.
  intros H0 HN r started.
  assert (Er : r = main_loop cfg world fuel n c s1) by reflexivity.
  subst started. clearbody r.
  destruct fuel as [| fuel]; simpl in Er.
  - destruct (c <? n)%Z; subst r; simpl; split; auto; intros; congruence.
  - destruct (Z.ltb_spec c n) as [Hlt | Hge];
      [| subst r; simpl; split; [auto | intros; lia]].
    assert (Hroom : (in_flight s1 <= 2 * num_workers cfg)%Z).
    { unfold in_flight. rewrite H0. simpl length. lia. }
    pose proof (admission_spec cfg world c s1 Hroom) as Ha. cbv zeta in Ha.
    unfold bind at 1 in Er. unfold tick in Er. unfold bind at 1 in Er.
    destruct (admission cfg world c s1) as [[c' | e |] s2].
    + destruct Ha as [-> [evs [t [E F]]]].
      unfold bind at 1 in Er.
      pose proof (collect_log_grows s2) as [e1 G1].
      destruct (collect cfg world s2) as [[[] | e |] s3]; simpl in G1, Er.
      * pose proof (main_loop_log_grows fuel n (c + 1) s3) as [e2 G2].
        rewrite <- Er in G2.
        assert (S : exists rest,
                  log (snd r) =
                  log s1 ++ EvChooseNext (X s1) (y s1) (retrain_flag cfg c) :: rest).
        { eexists. rewrite G2, G1, E.
          repeat (rewrite <- app_assoc; simpl). reflexivity. }
        split; [right | intros _ _ _]; exact S.
      * subst r. simpl.
        assert (S : exists rest,
                  log s3 =
                  log s1 ++ EvChooseNext (X s1) (y s1) (retrain_flag cfg c) :: rest).
        { eexists. rewrite G1, E.
          repeat (rewrite <- app_assoc; simpl). reflexivity. }
        split; [right | intros _ _ _]; exact S.
      * subst r. simpl.
        assert (S : exists rest,
                  log s3 =
                  log s1 ++ EvChooseNext (X s1) (y s1) (retrain_flag cfg c) :: rest).
        { eexists. rewrite G1, E.
          repeat (rewrite <- app_assoc; simpl). reflexivity. }
        split; [right | intros _ _ _]; exact S.
    + subst r. simpl. destruct Ha as [[-> Hti] | [evs [E F]]].
      * split; [auto | intros; congruence].
      * split; [right | intros]; eauto.
    + subst r. simpl. destruct Ha as [[-> Hti] | [evs [E F]]].
      * split; [auto | intros; congruence].
      * split; [right | intros]; eauto.
Qed.

End Supplied.

(** C9.  [run] called with both [X] and [y]: the first thing the solver does
    to the outside world -- before any sampling, submission or sleep -- is the
    call [choose_next(X, y, do_optimize)] on exactly the arrays supplied; if
    the run ends without doing anything, the arrays are stored as supplied.
    With iterations to do (and a non-zero [train_interval]) that call does
    happen. *)
Theorem supplied_dataset_is_used_as_is (cfg : config) (world : env)
    (fuel : nat) (num_iterations : Z) (X0 : ndarray) (y0 : yarray)
    (s : solver) :
  (0 <= num_workers cfg)%Z ->
  let r := run cfg world fuel num_iterations (Some X0) (Some y0) s in
  let first_call :=
    EvChooseNext (Some X0) (Some y0) (retrain_flag cfg (init_points cfg)) in
  let started := exists rest, log (snd r) = log s ++ first_call :: rest in
  (started \/
   (log (snd r) = log s /\ X (snd r) = Some X0 /\ y (snd r) = Some y0 /\
    rng (snd r) = rng s /\ next_tid (snd r) = next_tid s)) /\
  ((init_points cfg < num_iterations)%Z -> fuel <> 0%nat ->
   train_interval cfg <> 0%Z -> started).
Proof.
  intros HN r first_call started. subst started first_call r.
  rewrite run_supplied.
  set (s1 := after_supplied world (Some X0) (Some y0) s).
  assert (H1 : trial_statistics s1 = []) by reflexivity.
  pose proof (main_loop_first cfg world fuel num_iterations (init_points cfg)
                s1 H1 HN) as [Hm Hgo].
  cbv zeta in Hm, Hgo.
  change (log s1) with (log s) in Hm, Hgo.
  change (X s1) with (Some X0) in Hm, Hgo.
  change (y s1) with (Some y0) in Hm, Hgo.
  set (tail := (drain cfg world fuel ;;
                s2 <- get ;;
                inc <- last_item (incumbents s2) ;;
                inc_value <- last_item (incumbents_values s2) ;;
                ret (inc, inc_value))).
  assert (Htail : respects log_grows tail).
  { subst tail.
    repeat first
      [ apply drain_log_grows
      | apply respects_bind; [exact log_grows_trans | | intros ?]
      | apply respects_get; exact log_grows_refl
      | apply respects_last_item; exact log_grows_refl
      | apply respects_ret; exact log_grows_refl ]. }
  assert (Hquiet : snd (tail s1) = s1).
  { subst tail. unfold bind at 1. rewrite drain_nil by exact H1.
    unfold bind, get, last_item.
    destruct (rev (incumbents s1)); [reflexivity |].
    destruct (rev (incumbents_values s1)); reflexivity. }
  assert (Hkeep : forall s2,
            (exists rest, log s2 = log s ++
               EvChooseNext (Some X0) (Some y0)
                 (retrain_flag cfg (init_points cfg)) :: rest) ->
            exists rest, log (snd (tail s2)) = log s ++
               EvChooseNext (Some X0) (Some y0)
                 (retrain_flag cfg (init_points cfg)) :: rest).
  { intros s2 [rest E]. destruct (Htail s2) as [e2 G].
    eexists. rewrite G, E. rewrite <- app_assoc. simpl. reflexivity. }
  assert (Er : (main_loop cfg world fuel num_iterations (init_points cfg) ;; tail) s1 =
               match main_loop cfg world fuel num_iterations (init_points cfg) s1 with
               | (Ret _, s2) => tail s2
               | (Raise e, s2) => (Raise e, s2)
               | (OutOfFuel, s2) => (OutOfFuel, s2)
               end) by reflexivity.
  rewrite Er. clear Er. revert Hm Hgo.
  destruct (main_loop cfg world fuel num_iterations (init_points cfg) s1)
    as [[[] | e |] s2]; simpl; intros Hm Hgo.
  - split.
    + destruct Hm as [-> | Hs]; [right | left; auto].
      rewrite Hquiet. repeat split; reflexivity.
    + intros. apply Hkeep. auto.
  - split; [| exact Hgo].
    destruct Hm as [-> | Hs]; [right | left; auto].
    repeat split; reflexivity.
  - split; [| exact Hgo].
    destruct Hm as [-> | Hs]; [right | left; auto].
    repeat split; reflexivity.
Qed.

Lemma supplied_dataset_is_used_as_is_witness :
  exists rest,
    log (snd (run demo_cfg demo_world 9 4 (Some demo_X) (Some demo_y)
                (new_solver demo_world))) =
    log (new_solver demo_world) ++
    EvChooseNext (Some demo_X) (Some demo_y)
      (retrain_flag demo_cfg (init_points demo_cfg)) :: rest.
Proof.
  assert (HN : (0 <= num_workers demo_cfg)%Z) by (simpl; lia).
  refine (proj2 (@supplied_dataset_is_used_as_is demo_cfg demo_world 9 4
                   demo_X demo_y (new_solver demo_world) HN) _ _ _).
  - simpl. lia.
  - discriminate.
  - simpl. discriminate.
Defined.

(** * Where the code departs from its contract *)

(** C1.  [run] returns while a submitted trial is still in flight: with slow
    workers, two initial points and [num_iterations = 3], the third trial is
    submitted in the only pass of the main loop, is not finished when that
    pass harvests, and the block under [if not len(self.trial_statistics)] is
    skipped because the list is not empty.  Three trials were submitted, two
    observations are in the dataset. *)
Theorem run_returns_with_trial_in_flight :
  let r := run demo_cfg slow_world 64 3 None None (new_solver slow_world) in
  fst r = Ret ([1 # 3], Num (1 # 9)) /\
  trial_statistics (snd r) = [mkTrial 2 [1 # 52]] /\
  submissions (log (snd r)) = 3%Z /\
  y (snd r) = Some (Floats [Num (1 # 4); Num (1 # 9)]) /\
  drain demo_cfg slow_world 64 (snd r) = (Ret tt, snd r).
Proof. vm_compute. repeat split; reflexivity. Qed.

(** C2.  One call of [collect] with three futures in flight, of which the
    first two are finished when the call starts: the first is harvested and
    removed, which shifts the second into the position the iterator has just
    left; the second is never polled and stays in flight, finished. *)
Theorem collect_skips_after_a_removal :
  trial_statistics before_third_harvest =
    [mkTrial 0 [1 # 5]; mkTrial 1 [1 # 10]; mkTrial 2 [1 # 16]] /\
  done_at burst_world (clock before_third_harvest) 0 = true /\
  done_at burst_world (clock before_third_harvest) 1 = true /\
  let r := collect demo_cfg burst_world before_third_harvest in
  fst r = Ret tt /\
  trial_statistics (snd r) = [mkTrial 1 [1 # 10]; mkTrial 2 [1 # 16]] /\
  done_at burst_world (clock (snd r)) 1 = true /\
  X (snd r) = Some (Matrix 1 [[1 # 2]; [1 # 4]; [1 # 5]]) /\
  y (snd r) = Some (Floats [Num (1 # 4); Num (1 # 16); Num (1 # 25)]) /\
  length (incumbents_values (snd r)) = 1%nat.
Proof. vm_compute. repeat split; reflexivity. Qed.

(** With an output directory configured no harvest returns normally and none
    reaches [save_output]: the trace is as it was. *)
Lemma harvest_with_output_path cfg world dir t s :
  output_path cfg = Some dir ->
  (forall u, fst (harvest cfg world t s) <> Ret u) /\
  log (snd (harvest cfg world t s)) = log s.
Proof.
  intros Hdir. unfold harvest, result.
  destruct (evaluate_func world (tid t) (targ t)) as [[[new_y taken] new_x] |];
    [| simpl; split; [intros u; discriminate | reflexivity]].
  unfold bind, modify, get, ret, raise, index, time_time, tick_clock. simpl.
  destruct (X s) as [A0 |]; simpl;
    [| split; [intros u; discriminate | reflexivity]].
  destruct (append_row A0 new_x) as [A |]; simpl;
    [| split; [intros u; discriminate | reflexivity]].
  destruct (y s) as [[ys | ys] |]; simpl;
    try (split; [intros u; discriminate | reflexivity]).
  destruct (argmin (ys ++ [new_y])) as [b |]; simpl;
    [| split; [intros u; discriminate | reflexivity]].
  destruct (nth_error (rows_of A) b); simpl;
    [| split; [intros u; discriminate | reflexivity]].
  destruct (nth_error (ys ++ [new_y]) b); simpl;
    [| split; [intros u; discriminate | reflexivity]].
  rewrite Hdir. simpl. split; [intros u; discriminate | reflexivity].
Qed.

(** C3.  With an output directory configured, the first observation that
    [collect] harvests ends the run with a [NameError]: the two records of the
    initial design are written, no record of the main loop is. *)
Theorem collect_with_output_path_raises :
  let r := run demo_cfg_output demo_world 64 4 None None
             (new_solver demo_world) in
  fst r = Raise NameError /\
  filter (fun e => match e with EvSave _ _ => true | _ => false end)
    (log (snd r)) =
    [EvSave 0 (mkSaved (1 # 2) 11 [1 # 2] (Num (1 # 4)) 1 0);
     EvSave 1 (mkSaved (1 # 2) 12 [1 # 3] (Num (1 # 9)) 1 1)] /\
  y (snd r) = Some (Floats [Num (1 # 4); Num (1 # 9); Num (1 # 256)]).
Proof. vm_compute. repeat split; reflexivity. Qed.

(** C4.  On a dataset with zero rows -- an array of shape (0, D) or
    [np.array([])] -- [choose_next] takes the surrogate path: the test is
    [X.shape[0] == 1]. *)
Theorem choose_next_trains_on_empty_dataset (cfg : config) (world : env)
    (d : nat) (ya : option yarray) (do_optimize : bool) (s : solver) :
  (exists rest,
     log (snd (choose_next cfg world (Some (Matrix d [])) ya do_optimize s)) =
     log s ++ EvChooseNext (Some (Matrix d [])) ya do_optimize
           :: EvTrain (Some (Matrix d [])) ya do_optimize :: rest) /\
  (exists rest,
     log (snd (choose_next cfg world (Some Empty1D) ya do_optimize s)) =
     log s ++ EvChooseNext (Some Empty1D) ya do_optimize
           :: EvTrain (Some Empty1D) ya do_optimize :: rest).
Proof.
  unfold choose_next, emit, tick_clock, modify, get, bind, ret, raise. simpl.
  split.
  - destruct (model_train world (clock s) (Some (Matrix d [])) ya do_optimize);
      simpl; repeat rewrite <- app_assoc; simpl; eexists; reflexivity.
  - destruct (model_train world (clock s) (Some Empty1D) ya do_optimize);
      simpl; repeat rewrite <- app_assoc; simpl; eexists; reflexivity.
Qed.

(** * The incumbent histories *)

Lemma dle_not_nan a b :
  dle a b = true -> is_nan a = false /\ is_nan b = false.
Proof. destruct a, b; simpl; intros H; try discriminate; auto. Qed.

Lemma dle_refl v : is_nan v = false -> dle v v = true.
Proof.
  destruct v; simpl; intros H; try discriminate; try reflexivity.
  apply Qle_bool_iff. apply Qle_refl.
Qed.

Lemma dge_false_lt a b :
  is_nan a = false -> is_nan b = false -> dge a b = false -> dlt a b = true.
Proof. unfold dlt. intros -> -> ->. reflexivity. Qed.

Lemma Qle_bool_false p q : Qle_bool q p = false <-> (p < q)%Q.
Proof.
  split.
  - intros H. apply Qnot_le_lt. intros Hle.
    apply Qle_bool_iff in Hle. congruence.
  - intros H. destruct (Qle_bool q p) eqn:E; [| reflexivity].
    apply Qle_bool_iff in E. exfalso. exact (Qlt_not_le _ _ H E).
Qed.

Lemma dlt_dle a b : dlt a b = true -> dle a b = true.
Proof.
  destruct a as [p | | |], b as [q | | |]; unfold dlt; simpl; intros H;
    try discriminate; try reflexivity.
  apply negb_true_iff, Qle_bool_false in H.
  apply Qle_bool_iff. apply Qlt_le_weak. exact H.
Qed.

Lemma dlt_dle_trans a b c :
  dlt a b = true -> dle b c = true -> dlt a c = true.
Proof.
  destruct a as [p | | |], b as [q | | |], c as [r | | |]; unfold dlt; simpl;
    intros H1 H2; try discriminate; try reflexivity.
  apply negb_true_iff, Qle_bool_false in H1. apply Qle_bool_iff in H2.
  apply negb_true_iff, Qle_bool_false.
  eapply Qlt_le_trans; eassumption.
Qed.

Lemma nth_error_snoc {A} (l : list A) (a : A) j w :
  nth_error (l ++ [a]) j = Some w ->
  (nth_error l j = Some w /\ (j < length l)%nat) \/ (j = length l /\ w = a).
Proof.
  intros H. destruct (Nat.lt_ge_cases j (length l)) as [Hlt | Hge].
  - rewrite nth_error_app1 in H by exact Hlt. auto.
  - rewrite nth_error_app2 in H by exact Hge.
    destruct (j - length l)%nat as [| m] eqn:E; simpl in H.
    + right. split; [lia | congruence].
    + destruct m; discriminate.
Qed.

(** The scan of [np.argmin], with [p] the part already seen, in which no NaN
    was met. *)
Lemma argmin_from_spec l :
  forall p best_idx best,
    is_nan best = false ->
    first_minimum p best_idx best ->
    exists v,
      first_minimum (p ++ l) (argmin_from best_idx best (length p) l) v.
Proof.
  induction l as [| v l IH]; intros p bi best Hnum Hp.
  - simpl. rewrite app_nil_r. eauto.
  - destruct Hp as [Hb Hp]. rewrite Hnum in Hp. destruct Hp as [Hmin Hfirst].
    assert (Hlen : (bi < length p)%nat).
    { apply nth_error_Some. congruence. }
    assert (Hsnoc : length (p ++ [v]) = S (length p)).
    { rewrite length_app. simpl. lia. }
    cbn [argmin_from].
    destruct (dge v best) eqn:E; cbn [negb].
    + (* [v >= best]: the scan keeps its candidate *)
      replace (p ++ v :: l) with ((p ++ [v]) ++ l)
        by (rewrite <- app_assoc; reflexivity).
      rewrite <- Hsnoc. apply IH; [exact Hnum |].
      split; [rewrite nth_error_app1 by exact Hlen; exact Hb |].
      rewrite Hnum. split.
      * intros j w Hj. apply nth_error_snoc in Hj.
        destruct Hj as [[Hj _] | [_ ->]]; [eauto | exact E].
      * intros j w Hlt Hj. apply nth_error_snoc in Hj.
        destruct Hj as [[Hj _] | [-> _]]; [eauto | lia].
    + destruct (is_nan v) eqn:Hv.
      * (* the first NaN ends the scan *)
        exists v. split.
        -- rewrite nth_error_app2 by lia. rewrite Nat.sub_diag. reflexivity.
        -- rewrite Hv. intros j w Hlt Hj.
           rewrite nth_error_app1 in Hj by exact Hlt.
           apply (dle_not_nan best w). eauto.
      * (* [v < best]: the scan moves to [v] *)
        pose proof (dge_false_lt v best Hv Hnum E) as Elt.
        replace (p ++ v :: l) with ((p ++ [v]) ++ l)
          by (rewrite <- app_assoc; reflexivity).
        rewrite <- Hsnoc. apply IH; [exact Hv |].
        split; [rewrite nth_error_app2 by lia; rewrite Nat.sub_diag;
                reflexivity |].
        rewrite Hv. split.
        -- intros j w Hj. apply nth_error_snoc in Hj.
           destruct Hj as [[Hj _] | [_ ->]]; [| apply dle_refl; exact Hv].
           apply dlt_dle. apply (dlt_dle_trans v best w Elt). eauto.
        -- intros j w Hlt Hj. apply nth_error_snoc in Hj.
           destruct Hj as [[Hj _] | [-> _]]; [| lia].
           apply (dlt_dle_trans v best w Elt). eauto.
Qed.

Lemma argmin_spec ys b :
  argmin ys = Some b -> exists v, first_minimum ys b v.
Proof.
  destruct ys as [| v ys]; simpl; [discriminate |].
  intros H. injection H as <-.
  destruct (is_nan v) eqn:Hv.
  - exists v. split; [reflexivity |]. rewrite Hv. intros j w Hlt. lia.
  - apply (@argmin_from_spec ys [v] 0%nat v Hv).
    split; [reflexivity |]. rewrite Hv. split.
    + intros [| [| j]] w Hj; simpl in Hj; try discriminate.
      injection Hj as <-. apply dle_refl. exact Hv.
    + intros j w Hlt. lia.
Qed.

Lemma argmin_nonempty (l : list double) (v : double) :
  exists b, argmin (l ++ [v]) = Some b.
Proof. destruct l; simpl; eauto. Qed.

Lemma firstn_app_short {A} n (l1 l2 : list A) :
  (n <= length l1)%nat -> firstn n (l1 ++ l2) = firstn n l1.
Proof.
  intros H. rewrite firstn_app.
  replace (n - length l1)%nat with 0%nat by lia.
  simpl. apply app_nil_r.
Qed.

Lemma nth_error_firstn_more {A} m m' (l : list A) b v :
  (m <= m')%nat -> nth_error (firstn m l) b = Some v ->
  nth_error (firstn m' l) b = Some v.
Proof.
  intros Hm H. rewrite nth_error_firstn in *.
  destruct (Nat.ltb_spec b m); [| discriminate].
  destruct (Nat.ltb_spec b m'); [exact H | lia].
Qed.

Lemma recorded_nil base Xs ys :
  (base <= length ys)%nat -> recorded base Xs ys [] [].
Proof.
  intros H. repeat split; simpl; [lia |].
  intros [| k] v Hk; discriminate.
Qed.

(** Observations that have not been recorded (yet) do not disturb the
    records. *)
Lemma recorded_grow base Xs ys incs vals Xe ye :
  recorded base Xs ys incs vals ->
  recorded base (Xs ++ Xe) (ys ++ ye) incs vals.
Proof.
  intros [Hlen [Hbase Hrec]]. repeat split; [exact Hlen | |].
  - rewrite length_app. lia.
  - intros k v Hk. destruct (Hrec k v Hk) as [b [p [Hmin [Hx Hi]]]].
    assert (Hklt : (k < length vals)%nat).
    { apply nth_error_Some. congruence. }
    exists b, p. rewrite firstn_app_short by lia.
    split; [exact Hmin | split; [| exact Hi]].
    rewrite nth_error_app1; [exact Hx |].
    apply nth_error_Some. congruence.
Qed.

(** One arrival: the dataset grows by [(x, yv)] and the incumbent found by
    [argmin] on the grown dataset is appended to the histories. *)
Lemma recorded_step base Xs ys incs vals x yv b inc v :
  recorded_all base Xs ys incs vals ->
  argmin (ys ++ [yv]) = Some b ->
  nth_error (Xs ++ [x]) b = Some inc ->
  nth_error (ys ++ [yv]) b = Some v ->
  recorded_all base (Xs ++ [x]) (ys ++ [yv]) (incs ++ [inc]) (vals ++ [v]).
Proof.
  intros [Hr Hall] Hb Hinc Hv.
  pose proof (recorded_grow [x] [yv] Hr) as [Hlen [Hbase Hrec]].
  split; [| rewrite !length_app; simpl; lia].
  repeat split.
  - rewrite !length_app. simpl. lia.
  - rewrite !length_app. simpl. lia.
  - intros k w Hk. apply nth_error_snoc in Hk.
    destruct Hk as [[Hk Hklt] | [-> ->]].
    + destruct (Hrec k w Hk) as [b' [p [Hmin [Hx Hi]]]].
      exists b', p. split; [exact Hmin | split; [exact Hx |]].
      rewrite nth_error_app1; [exact Hi | lia].
    + exists b, inc.
      rewrite firstn_all2 by (rewrite length_app; simpl; lia).
      destruct (argmin_spec _ Hb) as [v' Hmin].
      assert (v' = v) by (destruct Hmin as [Hn _]; congruence). subst v'.
      split; [exact Hmin | split; [exact Hinc |]].
      rewrite nth_error_app2 by lia.
      replace (length vals - length incs)%nat with 0%nat by lia.
      reflexivity.
Qed.

(** No record is above a record made before it. *)
Lemma recorded_not_above base Xs ys incs vals :
  recorded base Xs ys incs vals ->
  forall i j vi vj, (i <= j)%nat ->
    nth_error vals i = Some vi -> nth_error vals j = Some vj ->
    not_above vi vj.
Proof.
  intros [_ [_ Hrec]] i j vi vj Hij Hi Hj.
  destruct (Hrec i vi Hi) as [bi [_ [[Hbi _] _]]].
  destruct (Hrec j vj Hj) as [bj [_ [[_ Hmin] _]]].
  assert (Hin : nth_error (firstn (base + j + 1) ys) bi = Some vi).
  { apply (nth_error_firstn_more (m := base + i + 1)); [lia | exact Hbi]. }
  unfold not_above. destruct (is_nan vj); [left; reflexivity | right].
  destruct Hmin as [Hmin _]. exact (Hmin bi vi Hin).
Qed.

Lemma append_row_rows A0 x A :
  append_row A0 x = Some A -> rows_of A = rows_of A0 ++ [x].
Proof.
  destruct A0 as [| d rows]; simpl; [discriminate |].
  destruct (Nat.eqb (length x) d); [| discriminate].
  intros H. injection H as <-. reflexivity.
Qed.

Lemma same_records_refl s : same_records s s.
Proof. unfold same_records. auto. Qed.

Lemma same_records_trans s1 s2 s3 :
  same_records s1 s2 -> same_records s2 s3 -> same_records s1 s3.
Proof. unfold same_records. intuition congruence. Qed.

Ltac same_records_tac :=
  first
    [ exact same_records_refl
    | exact same_records_trans
    | intros; unfold same_records; simpl; auto ].

Lemma records_complete_same s0 base s s' :
  records_complete s0 base s -> same_records s s' -> records_complete s0 base s'.
Proof.
  unfold records_complete, appended, dataset_X, dataset_y.
  intros [incs [vals H]] [-> [-> [-> ->]]]. exists incs, vals. exact H.
Qed.

Lemma records_ok_same s0 base s s' :
  records_ok s0 base s -> same_records s s' -> records_ok s0 base s'.
Proof.
  unfold records_ok, appended, dataset_X, dataset_y.
  intros [incs [vals H]] [-> [-> [-> ->]]]. exists incs, vals. exact H.
Qed.

Lemma collecting_initial_same s0 Xl yl s s' :
  collecting_initial s0 Xl yl s -> same_records s s' ->
  collecting_initial s0 Xl yl s'.
Proof.
  unfold collecting_initial, appended.
  intros H [-> [-> [-> ->]]]. exact H.
Qed.

Lemma history_ok_same s0 base s s' :
  history_ok s0 base s -> same_records s s' -> history_ok s0 base s'.
Proof.
  unfold history_ok, appended, dataset_X, dataset_y.
  intros [Xs [ys [incs [vals H]]]] [-> [-> [-> ->]]].
  exists Xs, ys, incs, vals. exact H.
Qed.

Lemma records_complete_ok s0 base s :
  records_complete s0 base s -> records_ok s0 base s.
Proof. intros [incs [vals [Ha [H _]]]]. exists incs, vals. auto. Qed.

Lemma records_ok_history s0 base s : records_ok s0 base s -> history_ok s0 base s.
Proof.
  intros [incs [vals [Ha H]]].
  exists (dataset_X s), (dataset_y s), incs, vals. auto.
Qed.

Lemma collecting_initial_history s0 Xl yl s :
  collecting_initial s0 Xl yl s -> history_ok s0 0 s.
Proof.
  intros [HX [Hy [incs [vals [Ha [H _]]]]]].
  exists Xl, yl, incs, vals. auto.
Qed.

(** At the entry of [run] nothing has been appended. *)
Lemma collecting_initial_entry s : collecting_initial s [] [] s.
Proof.
  split; [reflexivity | split; [reflexivity |]].
  exists [], []. unfold appended. rewrite !app_nil_r.
  split; [auto |]. split; [apply recorded_nil; simpl; lia | reflexivity].
Qed.

(** ... and nothing has when no observation was recorded. *)
Lemma collecting_initial_nothing s0 s :
  collecting_initial s0 [] [] s ->
  incumbents s = incumbents s0 /\ incumbents_values s = incumbents_values s0.
Proof.
  intros [_ [_ [incs [vals [[Hi Hv] [[Hlen _] Hall]]]]]].
  simpl in Hall.
  destruct vals; [| discriminate]. destruct incs; [| discriminate].
  rewrite app_nil_r in Hi, Hv. auto.
Qed.

Lemma drain_identity cfg world fuel s : drain cfg world fuel s = (Ret tt, s).
Proof.
  destruct (trial_statistics s) as [| t l] eqn:E.
  - apply drain_nil. exact E.
  - apply drain_skipped. congruence.
Qed.

Lemma rev_cons_inv {A} (l r : list A) (a : A) :
  rev l = a :: r -> l = rev r ++ [a].
Proof.
  intros H. apply (f_equal (@rev A)) in H. rewrite rev_involutive in H.
  exact H.
Qed.

Section Histories.

Variable cfg : config.
Variable world : env.
Variable s0 : solver.

(** One harvest extends the records by the new incumbent; if it raises on the
    way, the records made so far stand. *)
Lemma harvest_records base t :
  triple (records_complete s0 base) (harvest cfg world t)
    (fun _ => records_complete s0 base) (records_ok s0 base).
Proof.
  intros s [incs [vals [[Hi Hv] H]]]. unfold harvest, result.
  assert (Hfail : forall s', X s' = X s -> y s' = y s ->
            incumbents s' = incumbents s ->
            incumbents_values s' = incumbents_values s ->
            records_ok s0 base s').
  { intros s' E1 E2 E3 E4. exists incs, vals.
    unfold appended, dataset_X, dataset_y in *. rewrite E1, E2, E3, E4.
    split; [split; assumption | apply H]. }
  destruct (evaluate_func world (tid t) (targ t)) as [[[new_y taken] new_x] |];
    [| simpl; apply Hfail; reflexivity].
  unfold bind, modify, get, ret, raise, index, time_time, tick_clock. simpl.
  destruct (X s) as [A0 |] eqn:HX; simpl; [| apply Hfail; auto].
  destruct (append_row A0 new_x) as [A |] eqn:HA; simpl;
    [| apply Hfail; auto].
  pose proof (append_row_rows _ _ HA) as Hrows.
  unfold dataset_X, dataset_y in H. rewrite HX in H.
  assert (Hgrown : forall ys s',
            recorded_all base (rows_of A0) ys incs vals ->
            X s' = Some A -> dataset_y s' = ys ++ [new_y] ->
            incumbents s' = incumbents s ->
            incumbents_values s' = incumbents_values s ->
            records_ok s0 base s').
  { intros ys s' Hys E1 E2 E3 E4. exists incs, vals.
    unfold appended, dataset_X. rewrite E1, E2, E3, E4, Hrows.
    split; [split; assumption |].
    apply recorded_grow. apply Hys. }
  destruct (y s) as [[ys | ys] |] eqn:Hy; simpl in H |- *;
    [| apply (Hgrown ys); solve [exact H | reflexivity]
     | apply (Hgrown []); solve [exact H | reflexivity]].
  assert (Hweak : forall s',
            X s' = Some A -> dataset_y s' = ys ++ [new_y] ->
            incumbents s' = incumbents s ->
            incumbents_values s' = incumbents_values s ->
            records_ok s0 base s')
    by (intros s'; apply (Hgrown ys); exact H).
  destruct (argmin (ys ++ [new_y])) as [b |] eqn:Hb; simpl;
    [| apply Hweak; reflexivity].
  destruct (nth_error (rows_of A) b) as [inc |] eqn:Hinc; simpl;
    [| apply Hweak; reflexivity].
  destruct (nth_error (ys ++ [new_y]) b) as [v |] eqn:Hv'; simpl;
    [| apply Hweak; reflexivity].
  rewrite Hrows in Hinc.
  pose proof (@recorded_step _ _ _ _ _ new_x _ _ _ _ H Hb Hinc Hv') as Hstep.
  assert (Hdone : forall s',
            X s' = Some A -> y s' = Some (Floats (ys ++ [new_y])) ->
            incumbents s' = incumbents s ++ [inc] ->
            incumbents_values s' = incumbents_values s ++ [v] ->
            records_complete s0 base s').
  { intros s' E1 E2 E3 E4. exists (incs ++ [inc]), (vals ++ [v]).
    unfold appended, dataset_X, dataset_y. rewrite E1, E2, E3, E4, Hrows.
    rewrite Hi, Hv, <- !app_assoc. split; [split; reflexivity |].
    exact Hstep. }
  destruct (output_path cfg); simpl.
  - apply records_complete_ok. apply Hdone; reflexivity.
  - apply Hdone; reflexivity.
Qed.

Lemma collect_from_records base n :
  forall i, triple (records_complete s0 base) (collect_from cfg world n i)
              (fun _ => records_complete s0 base) (records_ok s0 base).
Proof.
  induction n as [| n IH]; intros i s H; simpl.
  - destruct (nth_error (trial_statistics s) i); simpl;
      [apply records_complete_ok |]; exact H.
  - destruct (nth_error (trial_statistics s) i) as [t |]; [| exact H].
    revert s H.
    change (triple (records_complete s0 base)
              (b <- done world t ;;
               (if b then harvest cfg world t else ret tt) ;;
               collect_from cfg world n (S i))
              (fun _ => records_complete s0 base) (records_ok s0 base)).
    eapply triple_bind with (Mid := fun _ => records_complete s0 base).
    + apply (@triple_keep _ same_records).
      * apply respects_done; same_records_tac.
      * apply records_complete_same.
      * apply records_complete_ok.
    + intros [|].
      * eapply triple_bind; [apply harvest_records | intros ?; apply IH].
      * eapply triple_bind; [| intros ?; apply IH].
        apply triple_ret. auto.
Qed.

Lemma collect_records base :
  triple (records_complete s0 base) (collect cfg world)
    (fun _ => records_complete s0 base) (records_ok s0 base).
Proof. intros s H. apply collect_from_records. exact H. Qed.

Lemma kept_complete {A} base (c : M A) :
  respects same_records c ->
  triple (records_complete s0 base) c
    (fun _ => records_complete s0 base) (records_ok s0 base).
Proof.
  intros H. apply (@triple_keep _ same_records).
  - exact H.
  - apply records_complete_same.
  - apply records_complete_ok.
Qed.

Lemma tick_records base c :
  triple (records_complete s0 base) (tick cfg world c)
    (fun _ => records_complete s0 base) (records_ok s0 base).
Proof.
  unfold tick.
  eapply triple_bind with (Mid := fun _ => records_complete s0 base).
  - apply kept_complete. apply respects_admission; same_records_tac.
  - intros c'.
    eapply triple_bind with (Mid := fun _ => records_complete s0 base).
    + apply collect_records.
    + intros ?. apply triple_ret. auto.
Qed.

Lemma main_loop_records base fuel n :
  forall c, triple (records_complete s0 base) (main_loop cfg world fuel n c)
              (fun _ => records_complete s0 base) (records_ok s0 base).
Proof.
  induction fuel as [| fuel IH]; intros c; simpl.
  - destruct (c <? n)%Z.
    + apply triple_out_of_fuel. apply records_complete_ok.
    + apply triple_ret. auto.
  - destruct (c <? n)%Z.
    + eapply triple_bind; [apply tick_records | exact IH].
    + apply triple_ret. auto.
Qed.

(** The loop over the initial trials, on the local lists of [run]. *)
Lemma init_harvest_records o init trials :
  forall i Xl yl,
    triple (collecting_initial s0 Xl yl)
      (init_harvest cfg world o init i trials Xl yl)
      (fun r => collecting_initial s0 (fst r) (snd r))
      (history_ok s0 0).
Proof.
  induction trials as [| t trials IH]; intros i Xl yl s H; simpl.
  - exact H.
  - pose proof (collecting_initial_history H) as Hhist.
    assert (Hfail : forall s', same_records s s' -> history_ok s0 0 s').
    { intros s' Hs'. exact (history_ok_same Hhist Hs'). }
    unfold result.
    destruct (evaluate_func world (tid t) (targ t)) as [[[new_y taken] x'] |];
      [| simpl; exact Hhist].
    unfold bind, modify, get, ret, raise, index, time_time, tick_clock. simpl.
    destruct (nth_error init i) as [x |]; simpl;
      [| apply Hfail; same_records_tac].
    destruct H as [HX [Hy [incs [vals [[Hi Hv] H]]]]].
    destruct (argmin (yl ++ [new_y])) as [b |] eqn:Hb; simpl;
      [| apply Hfail; same_records_tac].
    destruct (nth_error (Xl ++ [x]) b) as [inc |] eqn:Hinc; simpl;
      [| apply Hfail; same_records_tac].
    destruct (nth_error (yl ++ [new_y]) b) as [v |] eqn:Hv'; simpl;
      [| apply Hfail; same_records_tac].
    pose proof (@recorded_step _ _ _ _ _ x _ _ _ _ H Hb Hinc Hv') as Hstep.
    match goal with
    | |- context [match output_path cfg with _ => _ end ?s1] =>
        set (s' := s1)
    end.
    assert (Hs' : collecting_initial s0 (Xl ++ [x]) (yl ++ [new_y]) s').
    { subst s'. unfold collecting_initial, appended. simpl.
      split; [exact HX | split; [exact Hy |]].
      exists (incs ++ [inc]), (vals ++ [v]).
      rewrite Hi, Hv, <- !app_assoc. auto. }
    clearbody s'.
    destruct (output_path cfg) as [dir |].
    + assert (Hsame : same_records s' (snd (save_output cfg world i s')))
        by (apply respects_save_output; same_records_tac).
      destruct (save_output cfg world i s') as [[[] | e |] s2];
        simpl in Hsame |- *.
      * apply IH. exact (collecting_initial_same Hs' Hsame).
      * exact (collecting_initial_history (collecting_initial_same Hs' Hsame)).
      * exact (collecting_initial_history (collecting_initial_same Hs' Hsame)).
    + simpl. apply IH. exact Hs'.
Qed.

Lemma kept_initial {A} (c : M A) :
  respects same_records c ->
  triple (collecting_initial s0 [] []) c
    (fun _ => collecting_initial s0 [] []) (history_ok s0 0).
Proof.
  intros H. apply (@triple_keep _ same_records).
  - exact H.
  - apply collecting_initial_same.
  - apply collecting_initial_history.
Qed.

Lemma initial_phase_records fuel :
  triple (collecting_initial s0 [] []) (initial_phase cfg world fuel)
    (fun _ => records_complete s0 0) (history_ok s0 0).
Proof.
  unfold initial_phase.
  eapply triple_bind;
    [apply kept_initial; apply respects_time_time; same_records_tac |].
  intros start.
  eapply triple_bind;
    [apply kept_initial; apply respects_sample; same_records_tac |].
  intros init.
  eapply triple_bind;
    [apply kept_initial; apply respects_time_time; same_records_tac |].
  intros t_end.
  eapply triple_bind with (Mid := fun _ => collecting_initial s0 [] []).
  { destruct (Z.eqb (init_points cfg) 0).
    - apply triple_raise. apply collecting_initial_history.
    - apply triple_ret. auto. }
  intros overhead.
  eapply triple_bind;
    [apply kept_initial; apply respects_submit_all; same_records_tac |].
  intros ?.
  eapply triple_bind;
    [apply kept_initial; apply respects_wait_all; same_records_tac |].
  intros ?.
  eapply triple_bind; [apply triple_get |].
  intros s1.
  eapply triple_bind
    with (Mid := fun r => collecting_initial s0 (fst r) (snd r)).
  { eapply triple_conseq;
      [apply init_harvest_records | tauto | auto | auto]. }
  intros r.
  eapply triple_bind
    with (Mid := fun _ s => X s = Some (np_array (fst r)) /\
                exists incs vals,
                  appended s0 s incs vals /\
                  recorded_all 0 (fst r) (snd r) incs vals).
  { apply triple_modify. intros s [_ [_ H]]. simpl. auto. }
  intros ?. apply triple_modify. intros s [HX [incs [vals [Ha H]]]].
  exists incs, vals. split; [exact Ha |].
  unfold dataset_X, dataset_y. simpl. rewrite HX.
  replace (rows_of (np_array (fst r))) with (fst r)
    by (destruct (fst r); reflexivity).
  exact H.
Qed.

(** From the call of [run] to its end: when it returns, every observation of
    the dataset has been recorded and the pair returned is the last record;
    whatever the outcome, the records made stand. *)
Lemma run_records fuel n Xa ya :
  triple (collecting_initial s0 [] []) (run cfg world fuel n Xa ya)
    (fun v s => records_complete s0 (supplied ya) s /\
                exists li lv, incumbents s = li ++ [fst v] /\
                              incumbents_values s = lv ++ [snd v])
    (history_ok s0 (supplied ya)).
Proof.
  set (base := supplied ya).
  unfold run.
  eapply triple_bind with (Mid := fun _ => collecting_initial s0 [] []);
    [apply time_time_triple; intros s v H; exact H |].
  intros t0.
  eapply triple_bind with (Mid := fun _ => collecting_initial s0 [] []);
    [apply triple_modify; intros s H; exact H |].
  intros ?.
  eapply triple_bind with (Mid := fun _ => collecting_initial s0 [] []);
    [apply triple_modify; intros s H; exact H |].
  intros ?.
  eapply triple_bind with (Mid := fun _ => records_complete s0 base).
  { assert (Hsup : triple (collecting_initial s0 [] [])
                     (modify (set_X Xa) ;; modify (set_y ya))
                     (fun _ => records_complete s0 base) (history_ok s0 base)).
    { eapply triple_bind
        with (Mid := fun _ s => incumbents s = incumbents s0 /\
                                incumbents_values s = incumbents_values s0).
      - apply triple_modify. intros s H.
        apply collecting_initial_nothing in H. simpl. exact H.
      - intros ?. apply triple_modify. intros s [Hi Hv].
        exists [], []. unfold appended. simpl. rewrite Hi, Hv, !app_nil_r.
        split; [auto |]. unfold dataset_y. simpl. subst base.
        unfold supplied. split; [apply recorded_nil |];
          destruct ya; simpl; lia. }
    destruct Xa as [A |], ya as [ya0 |]; try exact Hsup.
    apply initial_phase_records. }
  intros ?.
  apply triple_conseq with (P' := records_complete s0 base)
    (Q' := fun v s => records_complete s0 base s /\
                exists li lv, incumbents s = li ++ [fst v] /\
                              incumbents_values s = lv ++ [snd v])
    (E' := records_ok s0 base);
    [| auto | auto | intros; apply records_ok_history; assumption].
  eapply triple_bind with (Mid := fun _ => records_complete s0 base).
  { apply kept_complete. apply respects_modify; same_records_tac. }
  intros ?.
  eapply triple_bind; [apply main_loop_records |].
  intros ?.
  eapply triple_bind with (Mid := fun _ => records_complete s0 base).
  { intros s H. rewrite drain_identity. exact H. }
  intros ? s H. unfold bind, get, last_item.
  destruct (rev (incumbents s)) as [| inc ri] eqn:Ei; simpl;
    [apply records_complete_ok; exact H |].
  destruct (rev (incumbents_values s)) as [| v rv] eqn:Ev; simpl;
    [apply records_complete_ok; exact H |].
  split; [exact H |].
  exists (rev ri), (rev rv). split; apply rev_cons_inv; assumption.
Qed.

End Histories.


(** * Further properties of the solver *)

(** X1.  The block that [run] executes after the main loop ("wait for all
    tasks finish") has no effect in any state: with futures in flight it is
    skipped, and without any it waits for nothing and harvests nothing. *)
Theorem final_block_does_nothing (cfg : config) (world : env) (fuel : nat)
    (s : solver) :
  drain cfg world fuel s = (Ret tt, s).
Proof. apply drain_identity. Qed.

(** X2.  [run] without a dataset on a solver configured with
    [initial_points = 0] raises [ZeroDivisionError] when it averages the
    sampling time: the sampler has been called once, nothing has been
    submitted and no dataset has been stored. *)
Theorem run_without_initial_points_divides_by_zero (cfg : config) (world : env)
    (fuel : nat) (num_iterations : Z) (s : solver) :
  init_points cfg = 0%Z ->
  let r := run cfg world fuel num_iterations None None s in
  fst r = Raise ZeroDivisionError /\
  log (snd r) = log s ++ [EvSample 0] /\
  trial_statistics (snd r) = [] /\
  next_tid (snd r) = next_tid s /\
  X (snd r) = X s /\ y (snd r) = y s.
Proof.
  intros H r.
  assert (Hr : r = (Raise ZeroDivisionError,
                    set_clock (S (S (S (clock s))))
                      (set_log (log s ++ [EvSample 0])
                        (set_rng (S (rng s))
                          (set_trial_statistics []
                            (set_time_start (Some (wall_clock world (clock s)))
                               s)))))).
  { subst r.
    unfold run, initial_phase, bind, time_time, sample, emit, tick_clock,
      modify, get, ret, raise. simpl. rewrite H. simpl. reflexivity. }
  rewrite Hr. simpl. repeat split; reflexivity.
Qed.

Lemma run_without_initial_points_divides_by_zero_witness :
  fst (run demo_cfg_no_initial demo_world 5 4 None None (new_solver demo_world))
  = Raise ZeroDivisionError.
Proof.
  apply (@run_without_initial_points_divides_by_zero demo_cfg_no_initial
           demo_world 5 4 (new_solver demo_world)).
  reflexivity.
Defined.

(** X3.  With [train_interval = 0] the first pass of the main loop raises
    [ZeroDivisionError] when it computes [(evaluate_counter + 1) %
    train_interval], before anything is chosen or submitted: [run] on a
    supplied dataset ends in the state in which it entered the loop. *)
Theorem zero_train_interval_divides_by_zero (cfg : config) (world : env)
    (fuel : nat) (num_iterations : Z) (X0 : ndarray) (ya : option yarray)
    (s : solver) :
  train_interval cfg = 0%Z ->
  (0 <= num_workers cfg)%Z ->
  (init_points cfg < num_iterations)%Z ->
  fuel <> 0%nat ->
  run cfg world fuel num_iterations (Some X0) ya s =
    (Raise ZeroDivisionError, after_supplied world (Some X0) ya s).
Proof.
  intros Hti HN Hlt Hfuel. rewrite run_supplied.
  destruct fuel as [| fuel]; [congruence |].
  set (s1 := after_supplied world (Some X0) ya s).
  assert (Hadm : admission cfg world (init_points cfg) s1 =
                 (Raise ZeroDivisionError, s1)).
  { unfold admission, bind at 1, get.
    replace (2 * num_workers cfg <? Z.of_nat (length (trial_statistics s1)))%Z
      with false
      by (symmetry; apply Z.ltb_ge;
          change (trial_statistics s1) with (@nil trial); simpl length; lia).
    unfold bind. rewrite Hti. reflexivity. }
  unfold bind at 1. simpl main_loop.
  apply Z.ltb_lt in Hlt. rewrite Hlt.
  unfold bind at 1, tick, bind at 1. rewrite Hadm. reflexivity.
Qed.

Lemma zero_train_interval_divides_by_zero_witness :
  run demo_cfg_no_interval demo_world 5 4 (Some demo_X) (Some demo_y)
    (new_solver demo_world) =
  (Raise ZeroDivisionError,
   after_supplied demo_world (Some demo_X) (Some demo_y) (new_solver demo_world)).
Proof.
  apply (@zero_train_interval_divides_by_zero demo_cfg_no_interval demo_world
           5 4 demo_X (Some demo_y) (new_solver demo_world)).
  - reflexivity.
  - simpl. lia.
  - simpl. lia.
  - discriminate.
Defined.

(** X4.  Called without any dataset, or with a dataset of exactly one row,
    [choose_next] draws one point from the initial-design sampler and does
    nothing else: no training, no update, no maximization.  Its value is the
    first row the sampler returned; a sampler that returns no row makes it an
    [IndexError]. *)
Theorem choose_next_samples_below_two_rows (cfg : config) (world : env)
    (Xa : option ndarray) (ya : option yarray) (do_optimize : bool)
    (s : solver) :
  (Xa = None /\ ya = None) \/ (exists A, Xa = Some A /\ nrows A = 1%nat) ->
  let r := choose_next cfg world Xa ya do_optimize s in
  log (snd r) = log s ++ [EvChooseNext Xa ya do_optimize; EvSample 1] /\
  fst r =
    match initial_design world (lower cfg) (upper cfg) 1 (rng s) with
    | x0 :: _ => Ret x0
    | [] => Raise IndexError
    end.
Proof.
  intros H r. subst r.
  assert (E : choose_next cfg world Xa ya do_optimize s =
              (emit (EvChooseNext Xa ya do_optimize) ;;
               rows <- sample cfg world 1 ;; index rows 0) s).
  { destruct H as [[-> ->] | [A [-> HA]]]; [reflexivity |].
    unfold choose_next. rewrite HA. reflexivity. }
  rewrite E. clear E H.
  unfold sample, emit, tick_clock, index, modify, get, bind, ret, raise.
  simpl.
  destruct (initial_design world (lower cfg) (upper cfg) 1 (rng s)); simpl;
    rewrite <- app_assoc; split; reflexivity.
Qed.

Lemma choose_next_samples_below_two_rows_witness :
  fst (choose_next demo_cfg demo_world (Some (Matrix 1 [[1 # 2]]))
         (Some (Floats [Num (1 # 4)])) true demo_supplied) = Ret [1 # 2].
Proof.
  apply (@choose_next_samples_below_two_rows demo_cfg demo_world
           (Some (Matrix 1 [[1 # 2]])) (Some (Floats [Num (1 # 4)])) true
           demo_supplied).
  right. exists (Matrix 1 [[1 # 2]]). split; reflexivity.
Defined.

(** X5.  When [model.train] fails on a dataset that does not have exactly one
    row, [choose_next] re-raises: the acquisition function is not updated and
    not maximized, and nothing follows the call of [train] in the trace. *)
Theorem failed_training_is_fatal (cfg : config) (world : env)
    (Xs : ndarray) (ya : option yarray) (do_optimize : bool) (s : solver) :
  nrows Xs <> 1%nat ->
  model_train world (clock s) (Some Xs) ya do_optimize = false ->
  let r := choose_next cfg world (Some Xs) ya do_optimize s in
  fst r = Raise TrainingError /\
  log (snd r) =
    log s ++ [EvChooseNext (Some Xs) ya do_optimize;
              EvTrain (Some Xs) ya do_optimize] /\
  trial_statistics (snd r) = trial_statistics s.
Proof.
  intros Hlen Htrain r. subst r.
  unfold choose_next, emit, tick_clock, modify, get, bind, ret, raise. simpl.
  apply Nat.eqb_neq in Hlen. rewrite Hlen. simpl. rewrite Htrain. simpl.
  rewrite <- app_assoc. repeat split; reflexivity.
Qed.

Lemma failed_training_is_fatal_witness :
  fst (choose_next demo_cfg untrainable_world (Some demo_X) (Some demo_y) true
         demo_supplied) = Raise TrainingError.
Proof.
  apply (@failed_training_is_fatal demo_cfg untrainable_world demo_X
           (Some demo_y) true demo_supplied).
  - discriminate.
  - reflexivity.
Defined.

(** X6.  A finished future whose objective raised is fatal for [collect]: if
    the first future in flight is done and its result is an exception,
    [collect] raises it at once; no other future is polled, and the dataset,
    the histories and the in-flight list stay as they were. *)
Theorem failed_trial_is_fatal (cfg : config) (world : env) (t : trial)
    (rest : list trial) (s : solver) :
  trial_statistics s = t :: rest ->
  done_at world (clock s) (tid t) = true ->
  evaluate_func world (tid t) (targ t) = None ->
  collect cfg world s =
    (Raise (ObjectiveError (tid t)), set_clock (S (clock s)) s).
Proof.
  intros Hts Hdone Hres. unfold collect. rewrite Hts. simpl.
  rewrite Hts. simpl.
  unfold bind, done, get, tick_clock, modify, ret. simpl.
  rewrite Hdone. unfold harvest, bind, result. rewrite Hres. reflexivity.
Qed.

Lemma failed_trial_is_fatal_witness :
  collect demo_cfg demo_world one_failed =
    (Raise (ObjectiveError 0), set_clock (S (clock one_failed)) one_failed).
Proof.
  apply (@failed_trial_is_fatal demo_cfg demo_world (mkTrial 0 [])
           [mkTrial 1 [1 # 3]] one_failed); reflexivity.
Defined.

Lemma set_clock_same s c : c = clock s -> set_clock c s = s.
Proof. intros ->. destruct s. reflexivity. Qed.

Lemma collect_from_unfinished cfg world n :
  forall i s,
    (forall c t, In t (trial_statistics s) -> done_at world c (tid t) = false) ->
    (length (trial_statistics s) <= n + i)%nat ->
    (i <= length (trial_statistics s))%nat ->
    collect_from cfg world n i s =
      (Ret tt, set_clock (clock s + (length (trial_statistics s) - i)) s).
Proof.
  induction n as [| n IH]; intros i s Hnot Hlen Hi; simpl.
  - assert (E : nth_error (trial_statistics s) i = None)
      by (apply nth_error_None; lia).
    rewrite E. rewrite set_clock_same by lia. reflexivity.
  - destruct (nth_error (trial_statistics s) i) as [t |] eqn:E.
    + assert (Hin : In t (trial_statistics s)) by (eapply nth_error_In; eauto).
      assert (Hlt : (i < length (trial_statistics s))%nat)
        by (apply nth_error_Some; congruence).
      unfold bind, done, get, tick_clock, modify, ret. simpl.
      rewrite (Hnot (clock s) t Hin). simpl.
      rewrite IH; simpl; try assumption; try lia.
      destruct s. unfold set_clock. simpl in *. f_equal. f_equal. lia.
    + apply nth_error_None in E.
      rewrite set_clock_same by lia. reflexivity.
Qed.

(** X7.  While none of the futures in flight is finished, [collect] polls
    each of them once and changes nothing: it returns with the dataset, the
    histories, the in-flight list and the trace as they were. *)
Theorem collect_leaves_unfinished (cfg : config) (world : env) (s : solver) :
  (forall c t, In t (trial_statistics s) -> done_at world c (tid t) = false) ->
  collect cfg world s =
    (Ret tt, set_clock (clock s + length (trial_statistics s)) s).
Proof.
  intros H. unfold collect.
  rewrite (@collect_from_unfinished cfg world _ 0 s H) by lia.
  rewrite Nat.sub_0_r. reflexivity.
Qed.

Lemma collect_leaves_unfinished_witness :
  collect demo_cfg stuck_world two_in_flight =
    (Ret tt, set_clock (clock two_in_flight + 2) two_in_flight).
Proof.
  apply (@collect_leaves_unfinished demo_cfg stuck_world two_in_flight).
  intros c t H. reflexivity.
Defined.

(** X8.  With no output directory, [collect] on a single finished future
    whose result is [(y, duration, x)], on a dataset of shape (N, D) with [N]
    values and [x] of [D] entries: the row and the value are appended to the
    dataset and the duration to its history, the first minimum of the grown
    dataset in the sense of [np.argmin] (the first NaN if there is one) is
    appended to the incumbent histories, the future leaves the in-flight
    list, and nothing is added to the trace. *)
Theorem collect_harvests_single_finished (cfg : config) (world : env)
    (t : trial) (s : solver) (dim : nat) (Xs : list point) (ys : list double)
    (yv : double) (d : Q) (x : point) :
  trial_statistics s = [t] ->
  done_at world (clock s) (tid t) = true ->
  evaluate_func world (tid t) (targ t) = Some (yv, d, x) ->
  X s = Some (Matrix dim Xs) -> y s = Some (Floats ys) ->
  length x = dim -> length Xs = length ys ->
  output_path cfg = None ->
  let r := collect cfg world s in
  fst r = Ret tt /\
  trial_statistics (snd r) = [] /\
  X (snd r) = Some (Matrix dim (Xs ++ [x])) /\
  y (snd r) = Some (Floats (ys ++ [yv])) /\
  time_func_evals (snd r) = time_func_evals s ++ [d] /\
  log (snd r) = log s /\
  exists b inc v,
    first_minimum (ys ++ [yv]) b v /\
    nth_error (Xs ++ [x]) b = Some inc /\
    incumbents (snd r) = incumbents s ++ [inc] /\
    incumbents_values (snd r) = incumbents_values s ++ [v].
Proof.
  intros Hts Hdone Hres HX Hy Hdim Hlen Hout r. subst r.
  unfold collect. rewrite Hts. simpl. rewrite Hts. simpl.
  unfold bind at 1, done, bind, get, tick_clock, modify, ret. simpl.
  rewrite Hdone.
  unfold harvest, result. simpl. rewrite Hres.
  unfold bind, modify, get, ret, raise, index, time_time, tick_clock. simpl.
  rewrite HX, Hy. simpl. rewrite Hdim, Nat.eqb_refl. simpl.
  destruct (argmin_nonempty ys yv) as [b Hb]. rewrite Hb. simpl.
  destruct (argmin_spec _ Hb) as [v Hmin].
  assert (Hv : nth_error (ys ++ [yv]) b = Some v) by apply Hmin.
  assert (Hb_lt : (b < length (Xs ++ [x]))%nat).
  { assert (Hby : (b < length (ys ++ [yv]))%nat)
      by (apply nth_error_Some; congruence).
    rewrite length_app in *. simpl in *. lia. }
  destruct (nth_error (Xs ++ [x]) b) as [inc |] eqn:Hinc;
    [| apply nth_error_None in Hinc; lia].
  simpl. rewrite Hv. simpl. rewrite Hout. simpl. rewrite Hts. simpl.
  rewrite Nat.eqb_refl. simpl.
  repeat split; try reflexivity.
  exists b, inc, v. repeat split; try assumption; try apply Hmin.
Qed.

Lemma collect_harvests_single_finished_witness :
  y (snd (collect demo_cfg demo_world one_in_flight)) =
    Some (Floats [Num (1 # 4); Num (1 # 16); Num (1 # 25)]).
Proof.
  apply (@collect_harvests_single_finished demo_cfg demo_world
           (mkTrial 0 [1 # 5]) one_in_flight 1 [[1 # 2]; [1 # 4]]
           [Num (1 # 4); Num (1 # 16)] (Num (1 # 25)) 1 [1 # 5]);
    reflexivity.
Defined.

Lemma admission_counter cfg world c s c' :
  fst (admission cfg world c s) = Ret c' -> c' = c \/ c' = (c + 1)%Z.
Proof.
  destruct (Z.lt_ge_cases (2 * num_workers cfg) (in_flight s)) as [Hfull | Hroom].
  - rewrite (admission_sleeps cfg world c s Hfull). simpl. intros H.
    left. congruence.
  - pose proof (admission_spec cfg world c s Hroom) as H. cbv zeta in H.
    destruct (admission cfg world c s) as [[c0 | e |] s1]; simpl;
      intros E; try discriminate.
    right. destruct H as [-> _]. congruence.
Qed.

Lemma tick_counter cfg world c s c' :
  fst (tick cfg world c s) = Ret c' ->
  (c' = c \/ c' = (c + 1)%Z) /\
  exists evs,
    log (snd (tick cfg world c s)) = log s ++ evs /\
    submissions evs = (c' - c)%Z.
Proof.
  intros H. split.
  - apply (@admission_counter cfg world c s c').
    unfold tick, bind in H.
    destruct (admission cfg world c s) as [[c0 | e |] s1]; simpl in *;
      try discriminate.
    destruct (collect cfg world s1) as [[[] | e |] s2]; simpl in *;
      try discriminate.
    exact H.
  - destruct (tick_trace cfg world c s) as [evs [E [_ C]]].
    exists evs. split; [exact E |]. rewrite H in C. lia.
Qed.

Lemma main_loop_submissions cfg world fuel n :
  forall c s s',
    main_loop cfg world fuel n c s = (Ret tt, s') ->
    exists evs, log s' = log s ++ evs /\ submissions evs = Z.max 0 (n - c).
Proof.
  induction fuel as [| fuel IH]; intros c s s' H; simpl in H.
  - destruct (Z.ltb_spec c n); [discriminate |].
    injection H as <-. exists []. rewrite app_nil_r. simpl. split; [reflexivity | lia].
  - destruct (Z.ltb_spec c n) as [Hlt | Hge].
    + unfold bind in H.
      pose proof (@tick_counter cfg world c s) as Ht.
      destruct (tick cfg world c s) as [[c' | e |] s1]; try discriminate.
      destruct (Ht c' eq_refl) as [Hc [evs [E S]]]. simpl in E.
      destruct (IH c' s1 s' H) as [evs' [E' S']].
      exists (evs ++ evs'). rewrite E', E, app_assoc. split; [reflexivity |].
      rewrite submissions_app, S, S'. lia.
    + injection H as <-. exists []. rewrite app_nil_r. simpl.
      split; [reflexivity | lia].
Qed.

(** X9.  When the main loop runs to its end, it has made exactly
    [num_iterations - evaluate_counter] submissions (none if the counter
    starts at or above [num_iterations]): passes that sleep and harvests do
    not count. *)
Theorem main_loop_submits_exactly (cfg : config) (world : env) (fuel : nat)
    (num_iterations c : Z) (s s' : solver) :
  main_loop cfg world fuel num_iterations c s = (Ret tt, s') ->
  exists evs,
    log s' = log s ++ evs /\
    submissions evs = Z.max 0 (num_iterations - c).
Proof. apply main_loop_submissions. Qed.

Lemma main_loop_submits_exactly_witness :
  exists evs,
    log (snd (main_loop demo_cfg demo_world 9 5 2 demo_supplied)) =
      log demo_supplied ++ evs /\
    submissions evs = Z.max 0 (5 - 2).
Proof.
  apply (@main_loop_submits_exactly demo_cfg demo_world 9 5 2 demo_supplied).
  vm_compute. reflexivity.
Defined.

Lemma triple_any_exit {A} (P : solver -> Prop) (c : M A)
    (Q : A -> solver -> Prop) (E : solver -> Prop) :
  triple P c Q E -> triple P c Q (fun _ => True).
Proof. intros H. eapply triple_conseq; [exact H | auto | auto | auto]. Qed.

(** X10.  The pair that [run] returns on a solver whose incumbent histories
    were empty, as [__init__] leaves them, is what [np.argmin] selects in the
    whole dataset it leaves behind: if the value is a number, every observed
    value is a number, none is smaller, and the point is the row of the first
    observation that has it; if the value is NaN, the point is the row of the
    first NaN observation. *)
Theorem run_returns_best_observation (cfg : config) (world : env) (fuel : nat)
    (num_iterations : Z) (Xa : option ndarray) (ya : option yarray)
    (inc : point) (v : double) (s s' : solver) :
  incumbents s = [] -> incumbents_values s = [] ->
  run cfg world fuel num_iterations Xa ya s = (Ret (inc, v), s') ->
  exists b,
    first_minimum (dataset_y s') b v /\ nth_error (dataset_X s') b = Some inc.
Proof.
  intros Hi0 Hv0 Hrun.
  pose proof (@run_records cfg world s fuel num_iterations Xa ya s
                (collecting_initial_entry s)) as H.
  rewrite Hrun in H. simpl in H.
  destruct H as [[incs [vals [[Hi Hv] [[Hlen [_ Hrec]] Hall]]]] [li [lv [Ei Ev]]]].
  rewrite Hi0 in Hi. rewrite Hv0 in Hv. simpl in Hi, Hv.
  rewrite Hi in Ei. rewrite Hv in Ev. subst incs vals.
  rewrite Ev in Hrec, Hall, Hlen. rewrite Ei in Hrec, Hlen.
  assert (Hk : nth_error (lv ++ [v]) (length lv) = Some v).
  { rewrite nth_error_app2, Nat.sub_diag by lia. reflexivity. }
  destruct (Hrec _ _ Hk) as [b [p [Hmin [Hx Hp]]]].
  assert (Hli : length li = length lv).
  { rewrite !length_app in Hlen. simpl in Hlen. lia. }
  assert (p = inc).
  { rewrite <- Hli, nth_error_app2, Nat.sub_diag in Hp by lia.
    simpl in Hp. congruence. }
  subst p.
  rewrite firstn_all2 in Hmin
    by (rewrite length_app in Hall; simpl in Hall; lia).
  exists b. auto.
Qed.

Lemma run_returns_best_observation_witness :
  exists b,
    first_minimum
      (dataset_y
         (snd (run demo_cfg demo_world 9 4 None None (new_solver demo_world))))
      b (Num (1 # 484)) /\
    nth_error
      (dataset_X
         (snd (run demo_cfg demo_world 9 4 None None (new_solver demo_world))))
      b = Some [1 # 22].
Proof.
  apply (@run_returns_best_observation demo_cfg demo_world 9 4 None None
           [1 # 22] (Num (1 # 484)) (new_solver demo_world)).
  - reflexivity.
  - reflexivity.
  - vm_compute. reflexivity.
Defined.

(** ** The barrier *)

Section Barrier.

Variable world : env.

(** One pass over the futures: it leaves everything but the clock and the
    trace alone, and a pass that finds an unfinished future costs two units
    of logical time (the poll and the sleep). *)
Lemma scan_spec l :
  forall s,
    let r := scan world l s in
    trial_statistics (snd r) = trial_statistics s /\
    same_records s (snd r) /\
    ((fst r = Ret true /\ (clock s <= clock (snd r))%nat) \/
     (fst r = Ret false /\ (clock s + 2 <= clock (snd r))%nat)).
Proof.
  induction l as [| t l IH]; intros s; simpl.
  - split; [reflexivity | split; [apply same_records_refl |]].
    left. split; [reflexivity | lia].
  - unfold bind at 1, done, bind, get, tick_clock, modify, ret. simpl.
    destruct (done_at world (clock s) (tid t)).
    + destruct (IH (set_clock (S (clock s)) s)) as [Hts [Hrec Hc]].
      simpl in *. split; [exact Hts | split; [exact Hrec |]].
      destruct Hc as [[E C] | [E C]]; [left | right]; split; auto; lia.
    + unfold sleep, emit, tick_clock, bind, modify. simpl.
      split; [reflexivity | split; [unfold same_records; simpl; auto |]].
      right. split; [reflexivity | lia].
Qed.

Lemma scan_finished T l :
  forall s,
    finished_from world T l -> (T <= clock s)%nat ->
    fst (scan world l s) = Ret true.
Proof.
  induction l as [| t l IH]; intros s Hfin Hc; simpl; [reflexivity |].
  unfold bind at 1, done, bind, get, tick_clock, modify, ret. simpl.
  rewrite (Hfin t (clock s) (or_introl eq_refl) Hc).
  apply IH.
  - intros u c Hu. apply Hfin. right. exact Hu.
  - simpl. lia.
Qed.

Lemma scan_cons t l s :
  scan world (t :: l) s =
    if done_at world (clock s) (tid t)
    then scan world l (set_clock (S (clock s)) s)
    else (Ret false,
          set_clock (S (S (clock s))) (set_log (log s ++ [EvSleep]) s)).
Proof.
  simpl. unfold bind at 1, done, bind, get, tick_clock, modify, ret. simpl.
  destruct (done_at world (clock s) (tid t)); reflexivity.
Qed.

Lemma scan_true l :
  forall s,
    fst (scan world l s) = Ret true ->
    forall t, In t l ->
      exists c, (c < clock (snd (scan world l s)))%nat /\
                done_at world c (tid t) = true.
Proof.
  induction l as [| t l IH]; intros s H u Hu; [destruct Hu |].
  rewrite scan_cons in *.
  destruct (done_at world (clock s) (tid t)) eqn:Hd; [| discriminate].
  destruct (scan_spec l (set_clock (S (clock s)) s)) as [_ [_ Hc]].
  simpl in Hc.
  destruct Hu as [<- | Hu].
  - exists (clock s). split; [| exact Hd].
    destruct Hc as [[_ C] | [_ C]]; lia.
  - apply IH; assumption.
Qed.

Lemma wait_all_enough fuel :
  forall s T,
    finished_from world T (trial_statistics s) ->
    (T <= clock s + fuel)%nat ->
    fst (wait_all world fuel s) = Ret tt.
Proof.
  induction fuel as [| fuel IH]; intros s T Hfin HT.
  - simpl. unfold bind at 1, get. unfold bind.
    pose proof (@scan_finished T (trial_statistics s) s Hfin) as Hs.
    destruct (scan world (trial_statistics s) s) as [[b | e |] s1];
      simpl in *; try (specialize (Hs ltac:(lia)); discriminate).
    specialize (Hs ltac:(lia)). injection Hs as ->. reflexivity.
  - simpl. unfold bind at 1, get. unfold bind.
    destruct (scan_spec (trial_statistics s) s) as [Hts [_ Hc]].
    destruct (scan world (trial_statistics s) s) as [[b | e |] s1];
      simpl in *;
      try (destruct Hc as [[E _] | [E _]]; discriminate).
    destruct b; [reflexivity |].
    destruct Hc as [[E _] | [_ C]]; [discriminate |].
    apply (IH s1 T).
    + rewrite Hts. exact Hfin.
    + lia.
Qed.

Lemma wait_all_last_pass fuel :
  forall s s',
    wait_all world fuel s = (Ret tt, s') ->
    exists s0,
      trial_statistics s0 = trial_statistics s /\
      scan world (trial_statistics s0) s0 = (Ret true, s').
Proof.
  induction fuel as [| fuel IH]; intros s s' H.
  - simpl in H. unfold bind at 1, get in H. unfold bind in H.
    destruct (scan world (trial_statistics s) s) as [[[|] | e |] s1] eqn:E;
      simpl in H; try discriminate.
    injection H as <-. exists s. auto.
  - simpl in H. unfold bind at 1, get in H. unfold bind in H.
    destruct (scan_spec (trial_statistics s) s) as [Hts _].
    destruct (scan world (trial_statistics s) s) as [[[|] | e |] s1] eqn:E;
      simpl in *; try discriminate.
    + injection H as <-. exists s. auto.
    + destruct (IH s1 s' H) as [s0 [H0 Hs0]].
      exists s0. split; [congruence | exact Hs0].
Qed.

End Barrier.

(** X11.  The wait for the in-flight futures ends: if all of them report done
    from logical time [T] on, the polling loop returns within [T - clock]
    further rounds, and it leaves the in-flight list, the dataset and the
    incumbent histories as they were. *)
Theorem barrier_ends (world : env) (fuel : nat) (s : solver) (T : nat) :
  finished_from world T (trial_statistics s) ->
  (T <= clock s + fuel)%nat ->
  let r := wait_all world fuel s in
  fst r = Ret tt /\
  trial_statistics (snd r) = trial_statistics s /\
  same_records s (snd r).
Proof.
  intros Hfin HT r. subst r. split; [| split].
  - exact (@wait_all_enough world fuel s T Hfin HT).
  - assert (H : respects same_in_flight (wait_all world fuel))
      by (apply respects_wait_all; same_in_flight_tac).
    apply H.
  - assert (H : respects same_records (wait_all world fuel))
      by (apply respects_wait_all; same_records_tac).
    apply H.
Qed.

Lemma barrier_ends_witness :
  fst (wait_all demo_world 8 two_just_submitted) = Ret tt.
Proof.
  apply (@barrier_ends demo_world 8 two_just_submitted 10).
  - intros t c [<- | [<- | []]] Hc; apply Nat.leb_le; simpl; lia.
  - simpl. lia.
Defined.

(** X12.  When the wait returns on a pool in which a finished future stays
    finished, every future in flight is finished. *)
Theorem barrier_holds (world : env) (fuel : nat) (s s' : solver) :
  monotone_pool world ->
  wait_all world fuel s = (Ret tt, s') ->
  forall t, In t (trial_statistics s) ->
    done_at world (clock s') (tid t) = true.
Proof.
  intros Hmono H t Ht.
  destruct (@wait_all_last_pass world fuel s s' H) as [s0 [H0 Hs0]].
  rewrite <- H0 in Ht.
  pose proof (@scan_true world (trial_statistics s0) s0) as Hscan.
  rewrite Hs0 in Hscan. simpl in Hscan.
  destruct (Hscan eq_refl t Ht) as [c [Hc Hd]].
  apply (Hmono (tid t) c (clock s')); [lia | exact Hd].
Qed.

Lemma barrier_holds_witness :
  done_at demo_world
    (clock (snd (wait_all demo_world 8 two_just_submitted))) 1 = true.
Proof.
  apply (@barrier_holds demo_world 8 two_just_submitted
           (snd (wait_all demo_world 8 two_just_submitted))
           ltac:(intros i c c' Hle H; apply Nat.leb_le in H;
                 apply Nat.leb_le; lia)
           ltac:(vm_compute; reflexivity)
           (mkTrial 1 [1 # 10])).
  right. left. reflexivity.
Defined.

(** ** Rows and values of the dataset *)

Lemma well_formed_same s s' : well_formed s -> same_records s s' -> well_formed s'.
Proof. unfold well_formed. intros H [-> [-> _]]. exact H. Qed.

Section WellFormed.

Variable cfg : config.
Variable world : env.

Lemma kept_well_formed {A} (c : M A) :
  respects same_records c ->
  triple well_formed c (fun _ => well_formed) well_formed.
Proof.
  intros H. apply (@triple_keep _ same_records).
  - exact H.
  - apply well_formed_same.
  - auto.
Qed.

Lemma harvest_well_formed t :
  triple well_formed (harvest cfg world t) (fun _ => well_formed) well_formed.
Proof.
  intros s H. unfold harvest, result.
  destruct (evaluate_func world (tid t) (targ t)) as [[[new_y taken] new_x] |];
    [| simpl; exact H].
  unfold bind, modify, get, ret, raise, index, time_time, tick_clock. simpl.
  unfold well_formed, well_formed_dataset in *.
  destruct (X s) as [A0 |] eqn:HX; simpl; rewrite ?HX;
    [| destruct (y s) as [[ys | ys] |]; exact H].
  destruct (append_row A0 new_x) as [A |] eqn:HA; simpl; rewrite ?HX;
    [| exact H].
  destruct (y s) as [[ys | ys] |] eqn:Hy; simpl; rewrite ?Hy;
    try contradiction.
  assert (Hgrown : nrows A = length (ys ++ [new_y])).
  { unfold nrows in *. rewrite (append_row_rows _ _ HA), !length_app.
    simpl. lia. }
  destruct (argmin (ys ++ [new_y])) as [b |]; simpl; [| exact Hgrown].
  destruct (nth_error (rows_of A) b); simpl; [| exact Hgrown].
  destruct (nth_error (ys ++ [new_y]) b); simpl; [| exact Hgrown].
  destruct (output_path cfg); simpl; exact Hgrown.
Qed.

Lemma collect_from_well_formed n :
  forall i, triple well_formed (collect_from cfg world n i)
              (fun _ => well_formed) well_formed.
Proof.
  induction n as [| n IH]; intros i s H; simpl.
  - destruct (nth_error (trial_statistics s) i); simpl; exact H.
  - destruct (nth_error (trial_statistics s) i) as [t |]; [| exact H].
    revert s H.
    change (triple well_formed
              (b <- done world t ;;
               (if b then harvest cfg world t else ret tt) ;;
               collect_from cfg world n (S i))
              (fun _ => well_formed) well_formed).
    eapply triple_bind with (Mid := fun _ => well_formed).
    + apply kept_well_formed. apply respects_done; same_records_tac.
    + intros [|].
      * eapply triple_bind; [apply harvest_well_formed | intros ?; apply IH].
      * eapply triple_bind; [| intros ?; apply IH].
        apply triple_ret. auto.
Qed.

Lemma collect_well_formed :
  triple well_formed (collect cfg world) (fun _ => well_formed) well_formed.
Proof. intros s H. apply collect_from_well_formed. exact H. Qed.

Lemma main_loop_well_formed fuel n :
  forall c, triple well_formed (main_loop cfg world fuel n c)
              (fun _ => well_formed) well_formed.
Proof.
  induction fuel as [| fuel IH]; intros c; simpl.
  - destruct (c <? n)%Z; [apply triple_out_of_fuel | apply triple_ret]; auto.
  - destruct (c <? n)%Z; [| apply triple_ret; auto].
    eapply triple_bind; [| exact IH].
    unfold tick.
    eapply triple_bind with (Mid := fun _ => well_formed).
    + apply kept_well_formed. apply respects_admission; same_records_tac.
    + intros c'. eapply triple_bind; [apply collect_well_formed |].
      intros ?. apply triple_ret. auto.
Qed.

(** The lists that the loop over the initial trials returns have the same
    length. *)
Lemma init_harvest_lengths o init trials :
  forall i Xl yl,
    length Xl = length yl ->
    triple well_formed (init_harvest cfg world o init i trials Xl yl)
      (fun r s => well_formed s /\ length (fst r) = length (snd r))
      well_formed.
Proof.
  induction trials as [| t trials IH]; intros i Xl yl Hlen s H; simpl.
  - auto.
  - unfold result.
    destruct (evaluate_func world (tid t) (targ t)) as [[[new_y taken] x'] |];
      [| simpl; exact H].
    unfold bind, modify, get, ret, raise, index, time_time, tick_clock. simpl.
    destruct (nth_error init i) as [x |]; simpl; [| exact H].
    destruct (argmin (yl ++ [new_y])) as [b |]; simpl; [| exact H].
    destruct (nth_error (Xl ++ [x]) b) as [inc |]; simpl; [| exact H].
    destruct (nth_error (yl ++ [new_y]) b) as [v |]; simpl; [| exact H].
    match goal with
    | |- context [match output_path cfg with _ => _ end ?s1] =>
        set (s' := s1)
    end.
    assert (Hs' : well_formed s') by exact H.
    assert (Hgrown : length (Xl ++ [x]) = length (yl ++ [new_y]))
      by (rewrite !length_app; simpl; lia).
    clearbody s'.
    destruct (output_path cfg) as [dir |].
    + assert (Hsame : same_records s' (snd (save_output cfg world i s')))
        by (apply respects_save_output; same_records_tac).
      destruct (save_output cfg world i s') as [[[] | e |] s2];
        simpl in Hsame |- *.
      * apply IH; [exact Hgrown | exact (well_formed_same Hs' Hsame)].
      * exact (well_formed_same Hs' Hsame).
      * exact (well_formed_same Hs' Hsame).
    + simpl. apply IH; assumption.
Qed.

Lemma initial_phase_well_formed fuel :
  triple well_formed (initial_phase cfg world fuel)
    (fun _ => well_formed) well_formed.
Proof.
  unfold initial_phase.
  eapply triple_bind;
    [apply kept_well_formed; apply respects_time_time; same_records_tac |].
  intros start.
  eapply triple_bind;
    [apply kept_well_formed; apply respects_sample; same_records_tac |].
  intros init.
  eapply triple_bind;
    [apply kept_well_formed; apply respects_time_time; same_records_tac |].
  intros t_end.
  eapply triple_bind with (Mid := fun _ => well_formed).
  { destruct (Z.eqb (init_points cfg) 0);
      [apply triple_raise | apply triple_ret]; auto. }
  intros overhead.
  eapply triple_bind;
    [apply kept_well_formed; apply respects_submit_all; same_records_tac |].
  intros ?.
  eapply triple_bind;
    [apply kept_well_formed; apply respects_wait_all; same_records_tac |].
  intros ?.
  eapply triple_bind; [apply triple_get |].
  intros s0.
  eapply triple_bind
    with (Mid := fun r s => well_formed s /\ length (fst r) = length (snd r)).
  { eapply triple_conseq;
      [apply init_harvest_lengths; reflexivity | tauto | auto | auto]. }
  intros r.
  eapply triple_bind
    with (Mid := fun _ s => X s = Some (np_array (fst r)) /\
                            length (fst r) = length (snd r)).
  { apply triple_modify. intros s [_ H]. simpl. auto. }
  intros ?. apply triple_modify. intros s [HX H].
  unfold well_formed. simpl. rewrite HX. simpl.
  rewrite <- H. destruct (fst r); reflexivity.
Qed.

Lemma run_well_formed fuel n Xa ya :
  well_formed_dataset Xa ya ->
  triple well_formed (run cfg world fuel n Xa ya)
    (fun _ => well_formed) well_formed.
Proof.
  intros Hargs. unfold run.
  eapply triple_bind;
    [apply kept_well_formed; apply respects_time_time; same_records_tac |].
  intros t0.
  eapply triple_bind;
    [apply kept_well_formed; apply respects_modify; same_records_tac |].
  intros ?.
  eapply triple_bind;
    [apply kept_well_formed; apply respects_modify; same_records_tac |].
  intros ?.
  eapply triple_bind with (Mid := fun _ => well_formed).
  { assert (Hsup : triple well_formed
                     (modify (set_X Xa) ;; modify (set_y ya))
                     (fun _ => well_formed) well_formed).
    { eapply triple_bind with (Mid := fun _ s => X s = Xa).
      - apply triple_modify. intros s _. reflexivity.
      - intros ?. apply triple_modify. intros s HX.
        unfold well_formed. simpl. rewrite HX. exact Hargs. }
    destruct Xa as [Xs |], ya as [ys |]; try exact Hsup.
    apply initial_phase_well_formed. }
  intros ?.
  eapply triple_bind;
    [apply kept_well_formed; apply respects_modify; same_records_tac |].
  intros ?.
  eapply triple_bind; [apply main_loop_well_formed |].
  intros ?.
  eapply triple_bind with (Mid := fun _ => well_formed).
  { intros s H. rewrite drain_identity. exact H. }
  intros ?.
  apply kept_well_formed.
  repeat first
    [ apply respects_bind; [exact same_records_trans | | intros ?]
    | apply respects_get; exact same_records_refl
    | apply respects_last_item; exact same_records_refl
    | apply respects_ret; exact same_records_refl ].
Qed.

End WellFormed.

(** X13.  [run] keeps [len(X) == len(y)]: started on a solver whose dataset
    is absent or has as many rows as values, with arguments of the same kind,
    it leaves such a dataset behind, whatever its outcome. *)
Theorem run_keeps_rows_and_values_aligned (cfg : config) (world : env)
    (fuel : nat) (num_iterations : Z) (Xa : option ndarray)
    (ya : option yarray) (s : solver) :
  well_formed_dataset (X s) (y s) ->
  well_formed_dataset Xa ya ->
  let s' := snd (run cfg world fuel num_iterations Xa ya s) in
  well_formed_dataset (X s') (y s').
Proof.
  intros Hs Hargs s'. subst s'.
  apply (@triple_final _ well_formed _ well_formed);
    [apply run_well_formed; exact Hargs | exact Hs].
Qed.

Lemma run_keeps_rows_and_values_aligned_witness :
  well_formed_dataset
    (X (snd (run demo_cfg demo_world 9 6 (Some demo_X) (Some demo_y)
               (new_solver demo_world))))
    (y (snd (run demo_cfg demo_world 9 6 (Some demo_X) (Some demo_y)
               (new_solver demo_world)))).
Proof.
  apply (@run_keeps_rows_and_values_aligned demo_cfg demo_world 9 6
           (Some demo_X) (Some demo_y) (new_solver demo_world)).
  - exact I.
  - reflexivity.
Defined.

(** ** Every submission is in flight or in the dataset *)

Lemma neutral_refl s : neutral s s.
Proof. unfold neutral. auto. Qed.

Lemma neutral_trans s1 s2 s3 : neutral s1 s2 -> neutral s2 s3 -> neutral s1 s3.
Proof. unfold neutral. intuition congruence. Qed.

Lemma neutral_balance s s' k : balance s = k -> neutral s s' -> balance s' = k.
Proof.
  unfold balance, in_flight. intros H [-> [-> ->]]. exact H.
Qed.

Lemma remove_trial_length_in t l :
  (exists u, In u l /\ tid u = tid t) ->
  S (length (remove_trial t l)) = length l.
Proof.
  induction l as [| u0 l IH]; intros [u [Hin Hid]]; [destruct Hin |].
  simpl. destruct (Nat.eqb_spec (tid u0) (tid t)) as [E | N]; [reflexivity |].
  simpl. f_equal. apply IH. exists u. split; [| exact Hid].
  destruct Hin as [-> | Hin]; [congruence | exact Hin].
Qed.

Ltac neutral_update :=
  intros; unfold neutral, dataset_y; simpl; rewrite ?submissions_app; simpl;
  repeat split; first [reflexivity | lia].

Ltac quiet :=
  repeat first
    [ assumption
    | apply respects_ret; exact neutral_refl
    | apply respects_raise; exact neutral_refl
    | apply respects_out_of_fuel; exact neutral_refl
    | apply respects_get; exact neutral_refl
    | apply respects_index; exact neutral_refl
    | apply respects_modify; neutral_update
    | apply respects_bind; [exact neutral_trans | | intros ?]
    | match goal with
      | |- respects _ (if ?b then _ else _) => destruct b
      | |- respects _ (match ?x with _ => _ end) => destruct x
      end ].

Section Quiet.

Variable cfg : config.
Variable world : env.

Lemma time_time_neutral : respects neutral (time_time world).
Proof. unfold time_time. quiet. Qed.

Lemma sleep_neutral : respects neutral sleep.
Proof. unfold sleep. quiet. Qed.

Lemma done_neutral t : respects neutral (done world t).
Proof. unfold done. quiet. Qed.

Lemma sample_neutral n : respects neutral (sample cfg world n).
Proof. unfold sample. quiet. Qed.

Lemma save_output_neutral it : respects neutral (save_output cfg world it).
Proof. unfold save_output. quiet. Qed.

Lemma choose_next_neutral Xa ya b : respects neutral (choose_next cfg world Xa ya b).
Proof.
  pose proof (sample_neutral 1). unfold choose_next. quiet.
Qed.

Lemma scan_neutral l : respects neutral (scan world l).
Proof.
  pose proof sleep_neutral.
  induction l as [| t l IH]; simpl; quiet.
Qed.

Lemma wait_all_neutral fuel : respects neutral (wait_all world fuel).
Proof.
  induction fuel as [| fuel IH]; simpl.
  - apply respects_bind; [exact neutral_trans | quiet | intros s0].
    apply respects_bind; [exact neutral_trans | apply scan_neutral | intros b].
    destruct b; quiet.
  - apply respects_bind; [exact neutral_trans | quiet | intros s0].
    apply respects_bind; [exact neutral_trans | apply scan_neutral | intros b].
    destruct b; quiet.
Qed.

End Quiet.

Section Accounting.

Variable cfg : config.
Variable world : env.

Lemma kept_balance {A} k (c : M A) :
  respects neutral c ->
  triple (fun s => balance s = k) c
    (fun _ s => balance s = k) (fun _ => True).
Proof.
  intros H. apply (@triple_keep _ neutral).
  - exact H.
  - intros s s' Hs Hn. exact (neutral_balance Hs Hn).
  - auto.
Qed.

(** A harvest that returns has moved one future from the in-flight list to
    the dataset. *)
Lemma harvest_balance k t :
  triple (fun s => balance s = k /\
                   exists u, In u (trial_statistics s) /\ tid u = tid t)
    (harvest cfg world t) (fun _ s => balance s = k) (fun _ => True).
Proof.
  intros s [H Hin]. unfold harvest, result.
  destruct (evaluate_func world (tid t) (targ t)) as [[[new_y taken] new_x] |];
    [| simpl; exact I].
  unfold bind, modify, get, ret, raise, index, time_time, tick_clock. simpl.
  destruct (X s) as [A0 |] eqn:HX; simpl; [| exact I].
  destruct (append_row A0 new_x) as [A |]; simpl; [| exact I].
  destruct (y s) as [[ys | ys] |] eqn:Hy; simpl; try exact I.
  destruct (argmin (ys ++ [new_y])) as [b |]; simpl; [| exact I].
  destruct (nth_error (rows_of A) b); simpl; [| exact I].
  destruct (nth_error (ys ++ [new_y]) b); simpl; [| exact I].
  destruct (output_path cfg); simpl; [exact I |].
  apply remove_trial_length_in in Hin.
  unfold balance, dataset_y, in_flight in *. simpl. rewrite Hy in H.
  simpl in H. rewrite length_app. simpl. lia.
Qed.

Lemma collect_from_balance k n :
  forall i, triple (fun s => balance s = k) (collect_from cfg world n i)
              (fun _ s => balance s = k) (fun _ => True).
Proof.
  induction n as [| n IH]; intros i s H; simpl.
  - destruct (nth_error (trial_statistics s) i); simpl; auto.
  - destruct (nth_error (trial_statistics s) i) as [t |] eqn:E; [| exact H].
    assert (Hin : In t (trial_statistics s)) by (eapply nth_error_In; eauto).
    unfold bind at 1, done, bind at 1, get, bind at 1, tick_clock, modify, ret.
    simpl.
    set (s1 := set_clock (S (clock s)) s).
    assert (H1 : balance s1 = k) by exact H.
    assert (Hin1 : In t (trial_statistics s1)) by exact Hin.
    clearbody s1.
    destruct (done_at world (clock s) (tid t)).
    + unfold bind.
      pose proof (@harvest_balance k t s1 (conj H1 (ex_intro _ t (conj Hin1 eq_refl))))
        as Hh.
      destruct (harvest cfg world t s1) as [[[] | e |] s2]; simpl; auto.
      apply IH. exact Hh.
    + unfold bind. simpl. apply IH. exact H1.
Qed.

Lemma collect_balance k :
  triple (fun s => balance s = k) (collect cfg world)
    (fun _ s => balance s = k) (fun _ => True).
Proof. intros s H. apply collect_from_balance. exact H. Qed.

(** An admission step that returns has either slept or added the future it
    submitted to the in-flight list. *)
Lemma admission_balance k c :
  triple (fun s => balance s = k) (admission cfg world c)
    (fun _ s => balance s = k) (fun _ => True).
Proof.
  unfold admission.
  eapply triple_bind; [apply triple_get |].
  intros s0.
  apply triple_conseq with (P' := fun s => balance s = k)
    (Q' := fun _ s => balance s = k) (E' := fun _ => True);
    [| tauto | auto | auto].
  destruct (2 * num_workers cfg <? Z.of_nat (length (trial_statistics s0)))%Z.
  - eapply triple_bind; [apply kept_balance; apply sleep_neutral |].
    intros ?. apply triple_ret. auto.
  - eapply triple_bind with (Mid := fun _ s => balance s = k).
    { destruct (Z.eqb (train_interval cfg) 0);
        [apply triple_raise | apply triple_ret]; auto. }
    intros b.
    eapply triple_bind; [apply kept_balance; apply time_time_neutral |].
    intros start.
    eapply triple_bind; [apply kept_balance; apply choose_next_neutral |].
    intros new_x.
    eapply triple_bind; [apply kept_balance; apply time_time_neutral |].
    intros t_end.
    eapply triple_bind with (Mid := fun _ s => balance s = k).
    { apply triple_modify. intros s H. exact H. }
    intros ?.
    eapply triple_bind with (Mid := fun _ s => balance s = (k - 1)%Z).
    { intros s H. simpl. unfold balance, dataset_y, in_flight in *. simpl.
      rewrite submissions_app. simpl. lia. }
    intros t.
    eapply triple_bind with (Mid := fun _ s => balance s = k).
    { apply triple_modify. intros s H.
      unfold balance, dataset_y, in_flight in *. simpl.
      rewrite length_app. simpl. lia. }
    intros ?. apply triple_ret. auto.
Qed.

Lemma main_loop_balance k fuel n :
  forall c, triple (fun s => balance s = k) (main_loop cfg world fuel n c)
              (fun _ s => balance s = k) (fun _ => True).
Proof.
  induction fuel as [| fuel IH]; intros c; simpl.
  - destruct (c <? n)%Z; [apply triple_out_of_fuel | apply triple_ret]; auto.
  - destruct (c <? n)%Z; [| apply triple_ret; auto].
    eapply triple_bind; [| exact IH].
    unfold tick.
    eapply triple_bind; [apply admission_balance |].
    intros c'. eapply triple_bind; [apply collect_balance |].
    intros ?. apply triple_ret. auto.
Qed.

End Accounting.

Section AccountingOfRun.

Variable cfg : config.
Variable world : env.

(** Submissions made before the run under study. *)
Variable m : Z.

Lemma neutral_in_flight s s' :
  (in_flight s = submissions (log s) - m)%Z -> neutral s s' ->
  (in_flight s' = submissions (log s') - m)%Z.
Proof. unfold in_flight. intros H [_ [-> ->]]. exact H. Qed.

Lemma kept_in_flight {A} (c : M A) :
  respects neutral c ->
  triple (fun s => (in_flight s = submissions (log s) - m)%Z) c
    (fun _ s => (in_flight s = submissions (log s) - m)%Z) (fun _ => True).
Proof.
  intros H. apply (@triple_keep _ neutral).
  - exact H.
  - intros s s' Hs Hn. exact (neutral_in_flight Hs Hn).
  - auto.
Qed.

Lemma submit_all_in_flight init :
  triple (fun s => (in_flight s = submissions (log s) - m)%Z) (submit_all init)
    (fun _ s => (in_flight s = submissions (log s) - m)%Z) (fun _ => True).
Proof.
  induction init as [| x init IH]; simpl.
  - apply triple_ret. auto.
  - intros s H.
    unfold bind, submit, get, modify, emit, ret. simpl.
    apply IH. unfold in_flight in *. simpl.
    rewrite length_app, submissions_app. simpl. lia.
Qed.

(** The loop over the initial trials returns one value per trial and submits
    nothing. *)
Lemma init_harvest_count m' o init trials :
  forall i Xl yl,
    triple (fun s => submissions (log s) = m')
      (init_harvest cfg world o init i trials Xl yl)
      (fun r s => submissions (log s) = m' /\
                  length (snd r) = (length yl + length trials)%nat)
      (fun _ => True).
Proof.
  induction trials as [| t trials IH]; intros i Xl yl s H; simpl.
  - split; [exact H | lia].
  - unfold result.
    destruct (evaluate_func world (tid t) (targ t)) as [[[new_y taken] x'] |];
      [| simpl; exact I].
    unfold bind, modify, get, ret, raise, index, time_time, tick_clock. simpl.
    destruct (nth_error init i) as [x |]; simpl; [| exact I].
    destruct (argmin (yl ++ [new_y])) as [b |]; simpl; [| exact I].
    destruct (nth_error (Xl ++ [x]) b) as [inc |]; simpl; [| exact I].
    destruct (nth_error (yl ++ [new_y]) b) as [v |]; simpl; [| exact I].
    match goal with
    | |- context [match output_path cfg with _ => _ end ?s1] =>
        set (s' := s1)
    end.
    assert (Hs' : submissions (log s') = m') by exact H.
    clearbody s'.
    assert (Hstep : forall s2, submissions (log s2) = m' ->
              match init_harvest cfg world o init (S i) trials
                      (Xl ++ [x]) (yl ++ [new_y]) s2 with
              | (Ret r, s3) =>
                  submissions (log s3) = m' /\
                  length (snd r) = (length yl + S (length trials))%nat
              | _ => True
              end).
    { intros s2 H2. pose proof (IH (S i) (Xl ++ [x]) (yl ++ [new_y]) s2 H2) as Hr.
      destruct (init_harvest cfg world o init (S i) trials
                  (Xl ++ [x]) (yl ++ [new_y]) s2) as [[r | e |] s3]; auto.
      destruct Hr as [Hr1 Hr2]. split; [exact Hr1 |].
      rewrite Hr2, length_app. simpl. lia. }
    destruct (output_path cfg) as [dir |].
    + assert (Hsame : neutral s' (snd (save_output cfg world i s')))
        by apply save_output_neutral.
      destruct (save_output cfg world i s') as [[[] | e |] s2]; simpl in Hsame |- *;
        [| exact I | exact I].
      apply Hstep. destruct Hsame as [_ [_ ->]]. exact Hs'.
    + simpl. apply Hstep. exact Hs'.
Qed.

Lemma initial_phase_count fuel :
  triple (fun s => (in_flight s = submissions (log s) - m)%Z)
    (initial_phase cfg world fuel)
    (fun _ s => (Z.of_nat (length (dataset_y s)) = submissions (log s) - m)%Z)
    (fun _ => True).
Proof.
  unfold initial_phase.
  eapply triple_bind; [apply kept_in_flight; apply time_time_neutral |].
  intros start.
  eapply triple_bind; [apply kept_in_flight; apply sample_neutral |].
  intros init.
  eapply triple_bind; [apply kept_in_flight; apply time_time_neutral |].
  intros t_end.
  eapply triple_bind
    with (Mid := fun _ s => (in_flight s = submissions (log s) - m)%Z).
  { destruct (Z.eqb (init_points cfg) 0);
      [apply triple_raise | apply triple_ret]; auto. }
  intros overhead.
  eapply triple_bind; [apply submit_all_in_flight |].
  intros ?.
  eapply triple_bind; [apply kept_in_flight; apply wait_all_neutral |].
  intros ?.
  eapply triple_bind; [apply triple_get |].
  intros s0.
  eapply triple_bind
    with (Mid := fun r s =>
                   (Z.of_nat (length (snd r)) = submissions (log s) - m)%Z).
  { intros s [-> H].
    pose proof (@init_harvest_count (submissions (log s)) overhead init
                  (trial_statistics s) 0 [] [] s eq_refl) as Hr.
    destruct (init_harvest cfg world overhead init 0 (trial_statistics s)
                [] [] s) as [[r | e |] s1]; auto.
    destruct Hr as [Hr1 Hr2]. rewrite Hr1, Hr2. exact H. }
  intros r.
  eapply triple_bind
    with (Mid := fun _ s =>
                   (Z.of_nat (length (snd r)) = submissions (log s) - m)%Z).
  { apply triple_modify. intros s H. exact H. }
  intros ?. apply triple_modify. intros s H. exact H.
Qed.

Lemma run_balance fuel n Xa ya :
  triple (fun s => submissions (log s) = m) (run cfg world fuel n Xa ya)
    (fun _ s => balance s = (Z.of_nat (supplied ya) - m)%Z) (fun _ => True).
Proof.
  unfold run.
  eapply triple_bind with (Mid := fun _ s => submissions (log s) = m);
    [apply time_time_triple; intros s v H; exact H |].
  intros t0.
  eapply triple_bind with (Mid := fun _ s => submissions (log s) = m);
    [apply triple_modify; intros s H; exact H |].
  intros ?.
  eapply triple_bind
    with (Mid := fun _ s => trial_statistics s = [] /\
                            submissions (log s) = m);
    [apply triple_modify; intros s H; split; [reflexivity | exact H] |].
  intros ?.
  eapply triple_bind
    with (Mid := fun _ s => (Z.of_nat (length (dataset_y s))
                             - submissions (log s))%Z
                            = (Z.of_nat (supplied ya) - m)%Z).
  { assert (Hsup : triple (fun s => trial_statistics s = [] /\
                                    submissions (log s) = m)
                     (modify (set_X Xa) ;; modify (set_y ya))
                     (fun _ s => (Z.of_nat (length (dataset_y s))
                                  - submissions (log s))%Z
                                 = (Z.of_nat (supplied ya) - m)%Z)
                     (fun _ => True)).
    { eapply triple_bind with (Mid := fun _ s => submissions (log s) = m).
      - apply triple_modify. intros s [_ H]. exact H.
      - intros ?. apply triple_modify. intros s H.
        unfold dataset_y, supplied. simpl. rewrite H.
        destruct ya; simpl; lia. }
    destruct Xa as [A |], ya as [ya0 |]; try exact Hsup.
    intros s [Hts H].
    pose proof (@initial_phase_count fuel s) as Hc.
    assert (Hin : (in_flight s = submissions (log s) - m)%Z).
    { unfold in_flight. rewrite Hts, H. simpl. lia. }
    specialize (Hc Hin).
    destruct (initial_phase cfg world fuel s) as [[[] | e |] s1]; auto.
    simpl in *. lia. }
  intros ?.
  eapply triple_bind
    with (Mid := fun _ s => balance s = (Z.of_nat (supplied ya) - m)%Z).
  { apply triple_modify. intros s H.
    unfold balance, in_flight, dataset_y in *. simpl. lia. }
  intros ?.
  eapply triple_bind; [apply main_loop_balance |].
  intros ?.
  eapply triple_bind
    with (Mid := fun _ s => balance s = (Z.of_nat (supplied ya) - m)%Z).
  { intros s H. rewrite drain_identity. exact H. }
  intros ? s H. unfold bind, get, last_item.
  destruct (rev (incumbents s)); simpl; [exact I |].
  destruct (rev (incumbents_values s)); simpl; [exact I | exact H].
Qed.

End AccountingOfRun.

(** X14.  When [run] returns on a freshly constructed solver, every trial it
    submitted is accounted for exactly once: the number of values in the
    dataset plus the number of futures still in flight is the number of
    values supplied plus the number of submissions made. *)
Theorem every_submission_is_accounted_for (cfg : config) (world : env)
    (fuel : nat) (num_iterations : Z) (Xa : option ndarray)
    (ya : option yarray) (v : point * double) (s' : solver) :
  run cfg world fuel num_iterations Xa ya (new_solver world) = (Ret v, s') ->
  (Z.of_nat (length (dataset_y s')) + in_flight s'
   = Z.of_nat (supplied ya) + submissions (log s'))%Z.
Proof.
  intros Hrun.
  pose proof (@run_balance cfg world 0 fuel num_iterations Xa ya
                (new_solver world) eq_refl) as H.
  rewrite Hrun in H. unfold balance in H. lia.
Qed.

Lemma every_submission_is_accounted_for_witness :
  (Z.of_nat (length (dataset_y
      (snd (run demo_cfg slow_world 64 3 None None (new_solver slow_world)))))
   + in_flight
      (snd (run demo_cfg slow_world 64 3 None None (new_solver slow_world)))
   = Z.of_nat (supplied None)
     + submissions (log
      (snd (run demo_cfg slow_world 64 3 None None (new_solver slow_world)))))%Z.
Proof.
  apply (@every_submission_is_accounted_for demo_cfg slow_world 64 3 None None
           ([1 # 3], Num (1 # 9))).
  vm_compute. reflexivity.
Defined.

(** ** The dataset of the initial design *)

Lemma numbered_length id l : length (numbered id l) = length l.
Proof.
  revert id. induction l as [| x l IH]; intros id; simpl; [reflexivity |].
  rewrite IH. reflexivity.
Qed.

Lemma skipn_nth_error {A} (l : list A) i x :
  nth_error l i = Some x -> skipn i l = x :: skipn (S i) l.
Proof.
  revert i. induction l as [| a l IH]; intros [| i] H; simpl in *;
    try discriminate.
  - congruence.
  - apply IH. exact H.
Qed.

Lemma same_overhead_refl s : same_overhead s s.
Proof. unfold same_overhead. auto. Qed.

Lemma same_overhead_trans s1 s2 s3 :
  same_overhead s1 s2 -> same_overhead s2 s3 -> same_overhead s1 s3.
Proof. unfold same_overhead. intuition congruence. Qed.

Ltac same_overhead_tac :=
  first
    [ exact same_overhead_refl
    | exact same_overhead_trans
    | intros; unfold same_overhead; simpl; auto ].

Section InitialDesign.

Variable cfg : config.
Variable world : env.

Lemma submit_all_numbered init :
  forall s,
    fst (submit_all init s) = Ret tt /\
    trial_statistics (snd (submit_all init s)) =
      trial_statistics s ++ numbered (next_tid s) init /\
    time_overhead (snd (submit_all init s)) = time_overhead s /\
    X (snd (submit_all init s)) = X s.
Proof.
  induction init as [| x init IH]; intros s; simpl.
  - rewrite app_nil_r. auto.
  - unfold bind, submit, get, modify, emit, ret. simpl.
    destruct (IH (set_trial_statistics
                    (trial_statistics s ++ [mkTrial (next_tid s) x])
                    (set_log (log s ++ [EvSubmit (mkTrial (next_tid s) x)])
                       (set_next_tid (S (next_tid s)) s))))
      as [H1 [H2 [H3 H4]]].
    simpl in *. rewrite H1, H2, H3, H4, <- app_assoc. auto.
Qed.

(** The loop over the initial trials, when it returns: it has gone through
    the rows of [init] from position [i] on, one per trial, appended them to
    [Xl] and the values of the trials to [yl], and appended [o] to
    [time_overhead] once per trial. *)
Lemma init_harvest_returns o init trials :
  forall i Xl yl s r s',
    init_harvest cfg world o init i trials Xl yl s = (Ret r, s') ->
    fst r = Xl ++ firstn (length trials) (skipn i init) /\
    (exists ynew, snd r = yl ++ ynew /\ Forall2 (value_of world) trials ynew) /\
    time_overhead s' = time_overhead s ++ repeat o (length trials) /\
    trial_statistics s' = trial_statistics s.
Proof.
  induction trials as [| t trials IH]; intros i Xl yl s r s' H; simpl in H.
  - injection H as <- <-. simpl. rewrite !app_nil_r.
    split; [reflexivity |]. split.
    + exists []. rewrite app_nil_r. split; [reflexivity | constructor].
    + split; reflexivity.
  - unfold result in H.
    destruct (evaluate_func world (tid t) (targ t)) as [[[new_y taken] x'] |]
      eqn:Hres; [| discriminate].
    unfold bind, modify, get, ret, raise, index, time_time, tick_clock in H.
    simpl in H.
    destruct (nth_error init i) as [x |] eqn:Hx; simpl in H; [| discriminate].
    destruct (argmin (yl ++ [new_y])) as [b |]; simpl in H; [| discriminate].
    destruct (nth_error (Xl ++ [x]) b) as [inc |]; simpl in H;
      [| discriminate].
    destruct (nth_error (yl ++ [new_y]) b) as [v |]; simpl in H;
      [| discriminate].
    match type of H with
    | context [match output_path cfg with _ => _ end ?s1] =>
        set (s1' := s1) in H
    end.
    assert (Hs1 : time_overhead s1' = time_overhead s ++ [o] /\
                  trial_statistics s1' = trial_statistics s)
      by (split; reflexivity).
    clearbody s1'.
    assert (Hrest : exists s2,
              (time_overhead s2 = time_overhead s ++ [o] /\
               trial_statistics s2 = trial_statistics s) /\
              init_harvest cfg world o init (S i) trials (Xl ++ [x])
                (yl ++ [new_y]) s2 = (Ret r, s')).
    { destruct (output_path cfg) as [dir |].
      - assert (Hsame : same_overhead s1' (snd (save_output cfg world i s1')))
          by (apply respects_save_output; same_overhead_tac).
        destruct (save_output cfg world i s1') as [[[] | e |] s2]; simpl in *;
          try discriminate.
        exists s2. split; [| exact H].
        destruct Hsame as [-> ->]. exact Hs1.
      - exists s1'. split; [exact Hs1 | exact H]. }
    destruct Hrest as [s2 [[Ho Hts] Hrec]].
    destruct (IH _ _ _ _ _ _ Hrec) as [HX [[ynew [Hy Hvals]] [Hov Hts']]].
    split; [| split; [| split]].
    + rewrite HX, (skipn_nth_error _ _ Hx), <- app_assoc. reflexivity.
    + exists (new_y :: ynew). rewrite Hy, <- app_assoc. split; [reflexivity |].
      constructor; [| exact Hvals]. exists taken, x'. exact Hres.
    + rewrite Hov, Ho, <- app_assoc. reflexivity.
    + congruence.
Qed.

End InitialDesign.

(** X15.  When the initial design completes (entered with nothing in flight),
    the dataset it stores is the sampled design itself, row by row in
    sampling order, with the value each row's own worker returned -- whatever
    the order in which the workers finished; and every initial point gets
    the same overhead entry. *)
Theorem initial_design_is_stored_in_order (cfg : config) (world : env)
    (fuel : nat) (s s' : solver) :
  trial_statistics s = [] ->
  initial_phase cfg world fuel s = (Ret tt, s') ->
  let init :=
    initial_design world (lower cfg) (upper cfg) (init_points cfg) (rng s) in
  X s' = Some (np_array init) /\
  (exists ys, y s' = Some (Floats ys) /\
              Forall2 (value_of world) (numbered (next_tid s) init) ys) /\
  (exists o, time_overhead s' = time_overhead s ++ repeat o (length init)).
Proof.
  intros Hts H init.
  unfold initial_phase, bind, time_time, sample, emit, tick_clock, modify, get,
    ret, raise in H. simpl in H. fold init in H.
  destruct (Z.eqb (init_points cfg) 0); [discriminate |].
  match type of H with
  | context [submit_all init ?s1] => set (s3 := s1) in H
  end.
  destruct (submit_all_numbered init s3) as [S1 [S2 [S3 _]]].
  destruct (submit_all init s3) as [[[] | e |] s4]; simpl in S1, S2, S3;
    try discriminate.
  assert (Hw : same_overhead s4 (snd (wait_all world fuel s4)))
    by (apply respects_wait_all; same_overhead_tac).
  destruct (wait_all world fuel s4) as [[[] | e |] s5]; simpl in Hw;
    try discriminate.
  destruct Hw as [W1 W2].
  match type of H with
  | context [init_harvest cfg world ?o init 0 _ [] [] s5] =>
      destruct (init_harvest cfg world o init 0 (trial_statistics s5) [] [] s5)
        as [[r | e |] s6] eqn:Hh; try discriminate
  end.
  apply init_harvest_returns in Hh.
  destruct Hh as [HX [[ynew [Hy Hvals]] [Hov _]]].
  injection H as <-. simpl.
  assert (Htrials : trial_statistics s5 = numbered (next_tid s) init).
  { rewrite W2, S2. subst s3. simpl. rewrite Hts. reflexivity. }
  rewrite Htrials in *. rewrite numbered_length in *.
  split; [| split].
  - rewrite HX. simpl. rewrite firstn_all. reflexivity.
  - exists ynew. simpl in Hy. rewrite Hy. auto.
  - eexists. rewrite Hov, W1, S3. subst s3. simpl. reflexivity.
Qed.

Lemma initial_design_is_stored_in_order_witness :
  X (snd (initial_phase demo_cfg demo_world 9 (new_solver demo_world))) =
    Some (np_array
            (initial_design demo_world (lower demo_cfg) (upper demo_cfg)
               (init_points demo_cfg) (rng (new_solver demo_world)))).
Proof.
  apply (@initial_design_is_stored_in_order demo_cfg demo_world 9
           (new_solver demo_world)
           (snd (initial_phase demo_cfg demo_world 9 (new_solver demo_world)))).
  - reflexivity.
  - vm_compute. reflexivity.
Defined.

(** ** The records of the initial design *)

Lemma nth_error_last {A} (l : list A) (a : A) i :
  length l = i -> nth_error (l ++ [a]) i = Some a.
Proof.
  intros <-. rewrite nth_error_app2 by lia. rewrite Nat.sub_diag. reflexivity.
Qed.

Lemma no_save_refl s : no_save s s.
Proof. unfold no_save. auto 10. Qed.

Lemma no_save_trans s1 s2 s3 : no_save s1 s2 -> no_save s2 s3 -> no_save s1 s3.
Proof. unfold no_save. intuition congruence. Qed.

Lemma saves_app s e :
  saves (set_log (log s ++ [e]) s) = saves s ++ (if is_save e then [e] else []).
Proof. unfold saves. simpl. rewrite filter_app. reflexivity. Qed.

Ltac no_save_update :=
  intros; unfold no_save; rewrite ?saves_app; simpl; rewrite ?app_nil_r;
  auto 10.

Ltac silent :=
  repeat first
    [ assumption
    | apply respects_ret; exact no_save_refl
    | apply respects_raise; exact no_save_refl
    | apply respects_out_of_fuel; exact no_save_refl
    | apply respects_get; exact no_save_refl
    | apply respects_index; exact no_save_refl
    | apply respects_modify; solve [no_save_update]
    | apply respects_bind; [exact no_save_trans | | intros ?]
    | match goal with
      | |- respects _ (if ?b then _ else _) => destruct b
      | |- respects _ (match ?x with _ => _ end) => destruct x
      end ].

Section Silent.

Variable cfg : config.
Variable world : env.

Lemma time_time_no_save : respects no_save (time_time world).
Proof. unfold time_time. silent. Qed.

Lemma sample_no_save n : respects no_save (sample cfg world n).
Proof. unfold sample. silent. Qed.

Lemma submit_all_no_save init : respects no_save (submit_all init).
Proof.
  induction init as [| x init IH]; simpl; [silent |].
  apply respects_bind; [exact no_save_trans | unfold submit; silent | intros t].
  apply respects_bind; [exact no_save_trans | silent | intros ?; exact IH].
Qed.

Lemma scan_no_save l : respects no_save (scan world l).
Proof.
  induction l as [| t l IH]; simpl; [silent |].
  apply respects_bind; [exact no_save_trans | unfold done; silent | intros b].
  destruct b; [exact IH | unfold sleep; silent].
Qed.

Lemma wait_all_no_save fuel : respects no_save (wait_all world fuel).
Proof.
  induction fuel as [| fuel IH]; simpl.
  - apply respects_bind; [exact no_save_trans | silent | intros s0].
    apply respects_bind; [exact no_save_trans | apply scan_no_save | intros b].
    destruct b; silent.
  - apply respects_bind; [exact no_save_trans | silent | intros s0].
    apply respects_bind; [exact no_save_trans | apply scan_no_save | intros b].
    destruct b; silent.
Qed.

End Silent.

Lemma wait_all_never_raises (world : env) fuel :
  forall s e, fst (wait_all world fuel s) <> Raise e.
Proof.
  induction fuel as [| fuel IH]; intros s e; simpl;
    unfold bind at 1, get; unfold bind;
    destruct (scan_spec world (trial_statistics s) s) as [_ [_ Hc]];
    destruct (scan world (trial_statistics s) s) as [[[|] | e' |] s1];
    simpl in *;
    try (destruct Hc as [[E _] | [E _]]; discriminate);
    try discriminate.
  apply IH.
Qed.

Lemma nth_error_app_kept {A} (l l' : list A) j a :
  nth_error l j = Some a -> nth_error (l ++ l') j = Some a.
Proof.
  intros H. rewrite nth_error_app1; [exact H |].
  apply nth_error_Some. congruence.
Qed.

Lemma records_kept_refl s : records_kept s s.
Proof. intros j r H. exact H. Qed.

Lemma records_kept_trans s1 s2 s3 :
  records_kept s1 s2 -> records_kept s2 s3 -> records_kept s1 s3.
Proof. intros H1 H2 j r H. apply H2, H1, H. Qed.

(** Appending to the histories keeps what could be written before. *)
Lemma records_kept_grown s s' a b c d e :
  time_overhead s' = time_overhead s ++ a ->
  runtime s' = runtime s ++ b ->
  incumbents s' = incumbents s ++ c ->
  incumbents_values s' = incumbents_values s ++ d ->
  time_func_evals s' = time_func_evals s ++ e ->
  records_kept s s'.
Proof.
  intros Ha Hb Hc Hd He j r. unfold record_at.
  rewrite Ha, Hb, Hc, Hd, He.
  destruct (nth_error (time_overhead s) j) eqn:E1; [| discriminate].
  destruct (nth_error (runtime s) j) eqn:E2; [| discriminate].
  destruct (nth_error (incumbents s) j) eqn:E3; [| discriminate].
  destruct (nth_error (incumbents_values s) j) eqn:E4; [| discriminate].
  destruct (nth_error (time_func_evals s) j) eqn:E5; [| discriminate].
  rewrite (@nth_error_app_kept _ _ a _ _ E1), (@nth_error_app_kept _ _ b _ _ E2),
    (@nth_error_app_kept _ _ c _ _ E3), (@nth_error_app_kept _ _ d _ _ E4),
    (@nth_error_app_kept _ _ e _ _ E5).
  auto.
Qed.

Lemma save_events_cons i r recs :
  save_events i (r :: recs) = EvSave i r :: save_events (S i) recs.
Proof. reflexivity. Qed.

Section Records.

Variable cfg : config.
Variable world : env.
Variable dir : string.
Hypothesis Hout : output_path cfg = Some dir.

Lemma save_output_writes it s r :
  record_at s it = Some r ->
  save_output cfg world it s =
    match json_dump world (clock s) dir it r with
    | None => (Ret tt, set_log (log s ++ [EvSave it r]) s)
    | Some e => (Raise e, s)
    end.
Proof.
  unfold record_at, save_output, bind, get, index, emit, modify, ret, raise.
  destruct (nth_error (time_overhead s) it); [| discriminate].
  destruct (nth_error (runtime s) it); [| discriminate].
  destruct (nth_error (incumbents s) it); [| discriminate].
  destruct (nth_error (incumbents_values s) it); [| discriminate].
  destruct (nth_error (time_func_evals s) it); [| discriminate].
  intros H. injection H as <-. rewrite Hout.
  destruct (json_dump world (clock s) dir it _); reflexivity.
Qed.

(** The loop over the initial trials with an output directory: on histories
    of [i] entries each it never fails on an index, and when it returns it
    has written one record per trial, under the keys [i], [i+1], ..., each
    made of the entries of the histories at its key. *)
Lemma init_harvest_saves o init trials :
  forall i Xl yl s,
    synced s i -> length Xl = length yl ->
    (i + length trials <= length init)%nat ->
    match init_harvest cfg world o init i trials Xl yl s with
    | (Ret _, s') =>
        synced s' (i + length trials) /\ records_kept s s' /\
        exists recs,
          length recs = length trials /\
          saves s' = saves s ++ save_events i recs /\
          forall k rec, nth_error recs k = Some rec ->
                        record_at s' (i + k) = Some rec
    | (Raise e, _) =>
        (exists id, e = ObjectiveError id) \/ raised_by_json_dump world dir e
    | (OutOfFuel, _) => False
    end.
Proof.
  induction trials as [| t trials IH]; intros i Xl yl s Hs Hlen Hi.
  - simpl. unfold ret. rewrite Nat.add_0_r.
    split; [exact Hs | split; [apply records_kept_refl |]].
    exists []. split; [reflexivity | split].
    + unfold save_events. simpl. rewrite app_nil_r. reflexivity.
    + intros [| k] rec H; discriminate.
  - simpl in Hi. simpl. unfold result.
    destruct (evaluate_func world (tid t) (targ t)) as [[[new_y taken] x'] |];
      [| simpl; left; eauto].
    unfold bind, modify, get, ret, raise, index, time_time, tick_clock.
    simpl.
    destruct (nth_error init i) as [x |] eqn:Hx; simpl;
      [| apply nth_error_None in Hx; lia].
    destruct (argmin_nonempty yl new_y) as [b Hb]. rewrite Hb. simpl.
    destruct (argmin_spec _ Hb) as [v0 Hmin].
    assert (Hv0 : nth_error (yl ++ [new_y]) b = Some v0) by apply Hmin.
    assert (Hbl : (b < length (Xl ++ [x]))%nat).
    { rewrite length_app, Hlen, <- length_app with (l' := [new_y]).
      apply nth_error_Some. congruence. }
    destruct (nth_error (Xl ++ [x]) b) as [inc |] eqn:Hinc; simpl;
      [| apply nth_error_None in Hinc; lia].
    rewrite Hv0. simpl. rewrite Hout.
    destruct Hs as [S1 [S2 [S3 [S4 S5]]]].
    match goal with
    | |- context [save_output cfg world i ?s1] => set (s1' := s1)
    end.
    assert (Hrec : record_at s1' i =
                   Some (mkSaved o (wall_clock world (clock s) - start_time s)%Q
                           inc v0 taken i)).
    { unfold record_at, s1'. simpl.
      rewrite (nth_error_last _ _ S1), (nth_error_last _ _ S2),
        (nth_error_last _ _ S3), (nth_error_last _ _ S4),
        (nth_error_last _ _ S5).
      reflexivity. }
    rewrite (save_output_writes _ _ Hrec).
    destruct (json_dump world (clock s1') dir i _) as [e |] eqn:Hdump;
      [simpl; right; exists (clock s1'); eauto |].
    simpl.
    set (s2 := set_log _ s1').
    assert (Hs2 : synced s2 (S i)).
    { unfold synced, s2, s1'. simpl. rewrite !length_app. simpl.
      repeat split; lia. }
    assert (Hk2 : records_kept s s2).
    { eapply records_kept_grown; unfold s2, s1'; simpl; reflexivity. }
    assert (Hlen2 : length (Xl ++ [x]) = length (yl ++ [new_y])).
    { rewrite !length_app. simpl. lia. }
    specialize (IH (S i) (Xl ++ [x]) (yl ++ [new_y]) s2 Hs2 Hlen2
                   ltac:(lia)).
    destruct (init_harvest cfg world o init (S i) trials (Xl ++ [x])
                (yl ++ [new_y]) s2) as [[r | e |] s'];
      [| exact IH | exact IH].
    destruct IH as [Hs' [Hk' [recs [Hn [Hsaves Hat]]]]].
    split; [| split].
    + replace (i + S (length trials))%nat with (S i + length trials)%nat
        by lia.
      exact Hs'.
    + eapply records_kept_trans; eassumption.
    + exists (mkSaved o (wall_clock world (clock s) - start_time s)%Q
                inc v0 taken i :: recs).
      split; [simpl; congruence | split].
      * rewrite Hsaves, save_events_cons. unfold s2, s1', saves. simpl.
        rewrite filter_app. simpl. rewrite <- app_assoc. reflexivity.
      * intros [| k] rec Hk; simpl in Hk.
        -- injection Hk as <-. rewrite Nat.add_0_r. apply Hk'.
           unfold record_at, s2. exact Hrec.
        -- replace (i + S k)%nat with (S i + k)%nat by lia.
           apply Hat. exact Hk.
Qed.

End Records.

(** X16.  With an output directory, the initial design of a solver whose
    histories are still empty never fails on a history index: it can only end
    with the division by zero of [initial_points = 0], with the error of an
    objective, or with the error of a write to the output directory.  When it
    completes it has written exactly one record per initial point, under the
    keys 0, 1, ... in this order, and each record holds the entries of the
    five histories at its key. *)
Theorem initial_design_writes_one_record_per_point (cfg : config) (world : env)
    (dir : string) (fuel : nat) (s : solver) :
  output_path cfg = Some dir ->
  trial_statistics s = [] ->
  synced s 0 ->
  let init :=
    initial_design world (lower cfg) (upper cfg) (init_points cfg) (rng s) in
  match initial_phase cfg world fuel s with
  | (Ret _, s') =>
      exists recs,
        length recs = length init /\
        saves s' = saves s ++ save_events 0 recs /\
        forall k rec, nth_error recs k = Some rec -> record_at s' k = Some rec
  | (Raise e, _) =>
      e = ZeroDivisionError \/ (exists id, e = ObjectiveError id) \/
      raised_by_json_dump world dir e
  | (OutOfFuel, _) => True
  end.
Proof.
  intros Hout Hts Hs init.
  unfold initial_phase, bind, time_time, sample, emit, tick_clock, modify, get,
    ret, raise. simpl. fold init.
  destruct (Z.eqb (init_points cfg) 0); [left; reflexivity |].
  match goal with
  | |- context [submit_all init ?s1] => set (s3 := s1)
  end.
  destruct (submit_all_numbered init s3) as [A1 [A2 _]].
  pose proof (@submit_all_no_save init s3) as A3.
  destruct (submit_all init s3) as [[[] | e |] s4]; simpl in A1, A2, A3;
    try discriminate.
  assert (Hw : same_overhead s4 (snd (wait_all world fuel s4)))
    by (apply respects_wait_all; same_overhead_tac).
  pose proof (@wait_all_no_save world fuel s4) as Hw2.
  pose proof (@wait_all_never_raises world fuel s4) as Hw3.
  destruct (wait_all world fuel s4) as [[[] | e |] s5]; simpl in Hw, Hw2, Hw3;
    [| exfalso; apply (Hw3 e); reflexivity | exact I].
  destruct Hw as [_ W2].
  assert (Htrials : trial_statistics s5 = numbered (next_tid s) init).
  { rewrite W2, A2. unfold s3. simpl. rewrite Hts. reflexivity. }
  assert (Hno : no_save s s5).
  { apply no_save_trans with s4; [| exact Hw2].
    apply no_save_trans with s3; [| exact A3].
    unfold s3, no_save, saves. simpl. rewrite filter_app. simpl.
    rewrite app_nil_r. auto 10. }
  destruct Hno as [N0 [N1 [N2 [N3 [N4 N5]]]]].
  assert (Hs5 : synced s5 0).
  { unfold synced in *. rewrite N1, N2, N3, N4, N5. exact Hs. }
  match goal with
  | |- context [init_harvest cfg world ?o init 0 _ [] [] s5] =>
      pose proof (@init_harvest_saves cfg world dir Hout o init
                    (trial_statistics s5) 0 [] [] s5 Hs5 eq_refl) as Hh;
      destruct (init_harvest cfg world o init 0 (trial_statistics s5) [] [] s5)
        as [[r | e |] s6]
  end.
  - rewrite Htrials, numbered_length in Hh. specialize (Hh (le_n _)).
    destruct Hh as [_ [_ [recs [Hn [Hsaves Hat]]]]].
    simpl. exists recs. split; [exact Hn | split].
    + unfold saves in *. simpl. rewrite Hsaves, N0. reflexivity.
    + intros k rec Hk. apply (Hat k rec Hk).
  - rewrite Htrials, numbered_length in Hh. specialize (Hh (le_n _)).
    simpl. right. exact Hh.
  - rewrite Htrials, numbered_length in Hh. specialize (Hh (le_n _)).
    contradiction.
Qed.

Lemma initial_design_writes_one_record_per_point_witness :
  exists recs,
    length recs = 2%nat /\
    saves (snd (initial_phase demo_cfg_output demo_world 9
                  (new_solver demo_world))) = save_events 0 recs.
Proof.
  assert (Hs : synced (new_solver demo_world) 0)
    by (unfold synced; simpl; auto 10).
  pose proof (@initial_design_writes_one_record_per_point demo_cfg_output
                demo_world "out"%string 9 (new_solver demo_world)
                eq_refl eq_refl Hs) as H.
  cbv zeta in H.
  assert (E : fst (initial_phase demo_cfg_output demo_world 9
                     (new_solver demo_world)) = Ret tt)
    by (vm_compute; reflexivity).
  destruct (initial_phase demo_cfg_output demo_world 9 (new_solver demo_world))
    as [[[] | e |] s']; simpl in E; try discriminate.
  destruct H as [recs [Hn [Hsaves _]]].
  exists recs. split; [exact Hn | exact Hsaves].
Defined.

(** X17.  [run] called with values but without points ([X=None] and a [y])
    and with iterations left to do fails at its first candidate selection,
    on the attribute access [X.shape] of [None], before anything is
    submitted to the pool. *)
Theorem run_with_values_but_no_points_raises (cfg : config) (world : env)
    (fuel : nat) (n : Z) (ys : yarray) (s : solver) :
  (0 <= num_workers cfg)%Z ->
  train_interval cfg <> 0%Z ->
  (init_points cfg < n)%Z ->
  fst (run cfg world (S fuel) n None (Some ys) s) = Raise AttributeError /\
  submissions (log (snd (run cfg world (S fuel) n None (Some ys) s))) =
    submissions (log s).
Proof.
  intros HN Hti Hn.
  apply Z.ltb_lt in Hn. apply Z.eqb_neq in Hti.
  assert (Hcap : (2 * num_workers cfg <? 0)%Z = false)
    by (apply Z.ltb_ge; lia).
  unfold run, bind, time_time, tick_clock, modify, get, ret. simpl.
  rewrite Hn.
  unfold tick, admission, bind, get, time_time, tick_clock, modify, ret.
  remember (2 * num_workers cfg)%Z as cap.
  simpl. rewrite Hcap, Hti. simpl.
  unfold choose_next, emit, bind, modify, raise. simpl.
  split; [reflexivity |].
  rewrite submissions_app. simpl. lia.
Qed.

Lemma run_with_values_but_no_points_raises_witness :
  fst (run demo_cfg demo_world 1 5 None (Some (Floats [Num (1 # 4)]))
         (new_solver demo_world)) = Raise AttributeError.
Proof.
  apply (@run_with_values_but_no_points_raises demo_cfg demo_world 0 5
           (Floats [Num (1 # 4)]) (new_solver demo_world)).
  - simpl. lia.
  - simpl. discriminate.
  - simpl. lia.
Defined.

(** * The incumbent histories of one call of [run] *)

(** The harvest of one finished trial, when it returns: the row and the value
    of the trial have joined the dataset, and one entry has been appended to
    each incumbent history, which is what [np.argmin] selects in the grown
    dataset. *)
Lemma harvest_appends_incumbent cfg world t s1 u s2 :
  harvest cfg world t s1 = (Ret u, s2) ->
  exists x yv b inc v,
    value_of world t yv /\
    dataset_X s2 = dataset_X s1 ++ [x] /\
    dataset_y s2 = dataset_y s1 ++ [yv] /\
    incumbents s2 = incumbents s1 ++ [inc] /\
    incumbents_values s2 = incumbents_values s1 ++ [v] /\
    first_minimum (dataset_y s2) b v /\
    nth_error (dataset_X s2) b = Some inc.
Proof.
  unfold harvest, result.
  destruct (evaluate_func world (tid t) (targ t)) as [[[new_y taken] new_x] |]
    eqn:Hres; [| discriminate].
  unfold bind, modify, get, ret, raise, index, time_time, tick_clock. simpl.
  unfold dataset_X, dataset_y.
  destruct (X s1) as [A0 |] eqn:HX; simpl; [| discriminate].
  destruct (append_row A0 new_x) as [A |] eqn:HA; simpl; [| discriminate].
  pose proof (append_row_rows _ _ HA) as Hrows.
  destruct (y s1) as [[ys | ys] |] eqn:Hy; simpl; try discriminate.
  destruct (argmin (ys ++ [new_y])) as [b |] eqn:Hb; simpl; [| discriminate].
  destruct (argmin_spec _ Hb) as [v0 Hmin].
  destruct (nth_error (rows_of A) b) as [inc |] eqn:Hinc; simpl;
    [| discriminate].
  destruct (nth_error (ys ++ [new_y]) b) as [v |] eqn:Hv; simpl;
    [| discriminate].
  assert (v0 = v) by (destruct Hmin as [Hn _]; congruence). subst v0.
  destruct (output_path cfg); simpl; [discriminate |].
  intros H. injection H as _ <-. simpl.
  exists new_x, new_y, b, inc, v.
  split; [exists taken, new_x; exact Hres |].
  rewrite Hrows in *.
  split; [reflexivity |]. split; [reflexivity |].
  split; [reflexivity |]. split; [reflexivity |].
  split; [exact Hmin | exact Hinc].
Qed.

(** C6.  One call of [run], on any solver and whatever its outcome, appends
    entries [incs] and [vals] to the two incumbent histories such that the
    [k]-th of them is what [np.argmin] selects among the observations present
    after the [k]-th arrival (the supplied ones and the first [k + 1]
    arrivals): if no observation present is NaN, the value is their minimum
    and the point is the row of the first observation that has it; if one is
    NaN, the value is NaN and the point is the row of the first NaN
    observation.  The dataset meant is the one stored in the solver, or, when
    the initial design was aborted before storing one, the one it had
    collected.  When [run] returns, every observation of the stored dataset
    beyond the supplied ones has its entry, and the entries are as many as
    the trials submitted by this call that are no longer in flight.  In
    [collect], each harvest that returns adds the trial's row and value to
    the dataset and appends exactly one such entry. *)
Theorem incumbent_is_first_minimum (cfg : config) (world : env) (fuel : nat)
    (num_iterations : Z) (Xa : option ndarray) (ya : option yarray)
    (s : solver) :
  let r := run cfg world fuel num_iterations Xa ya s in
  (exists Xs ys incs vals,
     incumbents (snd r) = incumbents s ++ incs /\
     incumbents_values (snd r) = incumbents_values s ++ vals /\
     recorded (supplied ya) Xs ys incs vals /\
     ((X (snd r) = X s /\ y (snd r) = y s) \/
      (dataset_X (snd r) = Xs /\ dataset_y (snd r) = ys)) /\
     (forall v, fst r = Ret v ->
        dataset_X (snd r) = Xs /\ dataset_y (snd r) = ys /\
        (supplied ya + length vals = length ys)%nat /\
        (Z.of_nat (length vals) + in_flight (snd r)
         = submissions (log (snd r)) - submissions (log s))%Z)) /\
  (forall t s1 u s2,
     harvest cfg world t s1 = (Ret u, s2) ->
     exists x yv b inc v,
       value_of world t yv /\
       dataset_X s2 = dataset_X s1 ++ [x] /\
       dataset_y s2 = dataset_y s1 ++ [yv] /\
       incumbents s2 = incumbents s1 ++ [inc] /\
       incumbents_values s2 = incumbents_values s1 ++ [v] /\
       first_minimum (dataset_y s2) b v /\
       nth_error (dataset_X s2) b = Some inc).
Proof.
  intros r. split; [| apply harvest_appends_incumbent].
  pose proof (@run_records cfg world s fuel num_iterations Xa ya s
                (collecting_initial_entry s)) as H.
  pose proof (@run_balance cfg world (submissions (log s)) fuel num_iterations
                Xa ya s eq_refl) as Hb.
  subst r.
  destruct (run cfg world fuel num_iterations Xa ya s) as [[v | e |] s'];
    simpl in *.
  - destruct H as [[incs [vals [[Hi Hv] [Hrec Hall]]]] _].
    exists (dataset_X s'), (dataset_y s'), incs, vals.
    split; [exact Hi | split; [exact Hv | split; [exact Hrec |]]].
    split; [right; auto |].
    intros v' _. split; [reflexivity | split; [reflexivity |]].
    split; [exact Hall |].
    unfold balance in Hb. lia.
  - destruct H as [Xs [ys [incs [vals [[Hi Hv] [Hrec Hlink]]]]]].
    exists Xs, ys, incs, vals.
    split; [exact Hi | split; [exact Hv | split; [exact Hrec |]]].
    split; [exact Hlink | intros v; discriminate].
  - destruct H as [Xs [ys [incs [vals [[Hi Hv] [Hrec Hlink]]]]]].
    exists Xs, ys, incs, vals.
    split; [exact Hi | split; [exact Hv | split; [exact Hrec |]]].
    split; [exact Hlink | intros v; discriminate].
Qed.

(** With a NaN among the observations the recorded value is not their
    minimum: after the second arrival of the initial design the observations
    are [1/4] and NaN, and the value recorded is NaN, which is not below
    [1/4] and is not what [min] answers on them. *)
Lemma incumbent_with_nan_is_not_least_value :
  let s' := snd (run demo_cfg nan_world 9 4 None None (new_solver nan_world)) in
  firstn 2 (dataset_y s') = [Num (1 # 4); NaN] /\
  nth_error (incumbents_values s') 1 = Some NaN /\
  python_min (firstn 2 (dataset_y s')) = Some (Num (1 # 4)) /\
  ~ least_value (firstn 2 (dataset_y s')) NaN.
Proof.
  split; [vm_compute; reflexivity | split; [vm_compute; reflexivity |]].
  split; [vm_compute; reflexivity |].
  intros [_ H].
  assert (E : firstn 2 (dataset_y (snd (run demo_cfg nan_world 9 4 None None
                                          (new_solver nan_world))))
              = [Num (1 # 4); NaN]) by (vm_compute; reflexivity).
  rewrite E in H. specialize (H (Num (1 # 4)) (or_introl eq_refl)).
  discriminate.
Qed.

(** C8.  Among the entries that one call of [run] appends to the history of
    incumbent values, on any solver and whatever its outcome, none is above
    an earlier one: a number is less than or equal to every entry appended
    before it, and once NaN has been recorded every later entry is NaN. *)
Theorem incumbent_values_never_increase (cfg : config) (world : env)
    (fuel : nat) (num_iterations : Z) (Xa : option ndarray)
    (ya : option yarray) (s : solver) :
  exists vals,
    incumbents_values (snd (run cfg world fuel num_iterations Xa ya s))
      = incumbents_values s ++ vals /\
    forall i j vi vj, (i <= j)%nat ->
      nth_error vals i = Some vi -> nth_error vals j = Some vj ->
      not_above vi vj.
Proof.
  pose proof (@run_records cfg world s fuel num_iterations Xa ya s
                (collecting_initial_entry s)) as H.
  destruct (run cfg world fuel num_iterations Xa ya s) as [[v | e |] s'];
    simpl in *.
  - destruct H as [[incs [vals [[Hi Hv] [Hrec Hall]]]] _].
    exists vals. split; [exact Hv | exact (recorded_not_above Hrec)].
  - destruct H as [Xs [ys [incs [vals [[Hi Hv] [Hrec Hlink]]]]]].
    exists vals. split; [exact Hv | exact (recorded_not_above Hrec)].
  - destruct H as [Xs [ys [incs [vals [[Hi Hv] [Hrec Hlink]]]]]].
    exists vals. split; [exact Hv | exact (recorded_not_above Hrec)].
Qed.

(** The history of incumbent values does increase: on a solver that is run a
    second time, whose history [run] does not reset, the first entry of the
    second call, [1/9], follows the last entry of the first, [1/484]; and
    with a NaN observation the second entry is NaN, which is not below the
    first, [1/4]. *)
Lemma incumbent_values_history_increases :
  (let vals :=
     incumbents_values
       (snd (run demo_cfg demo_world 9 4 None None used_solver)) in
   nth_error vals 3 = Some (Num (1 # 484)) /\
   nth_error vals 4 = Some (Num (1 # 9)) /\
   dle (Num (1 # 9)) (Num (1 # 484)) = false) /\
  (let vals :=
     incumbents_values
       (snd (run demo_cfg nan_world 9 4 None None (new_solver nan_world))) in
   nth_error vals 0 = Some (Num (1 # 4)) /\
   nth_error vals 1 = Some NaN /\
   dle NaN (Num (1 # 4)) = false).
Proof. vm_compute. repeat split; reflexivity. Qed.
